(** * Stage progression and word puzzle of the "Registros do Outro Lado" app

    A shallow embedding of the decision logic of [src/App.tsx] (and of its
    near-duplicate variant): the loaders of the persisted stage and mute
    flag, the answer form handler [handleSubmit], and the handlers of the
    three-slot word puzzle [DragPuzzle].

    Conventions.
    - JS strings are [string]s.  The runtime methods [trim], [toUpperCase]
      and [parseInt] are written out for texts of ASCII characters, on
      which they are the runtime's; on other characters the runtime knows
      more white space and more letters than these definitions.  A
      statement that would depend on it is made on the formatted text, or
      on ASCII texts ([isASCII]).
    - [localStorage] is a finite map from keys to texts together with a flag
      telling whether the browser lets the page use it; when it does not,
      every access throws.
    - React state is a record; a handler is a function from the state (and
      the storage) it sees at the event to the state after it. *)

From Stdlib Require Import ZArith Lia Bool Ascii String List Permutation.
From stdpp Require Import base option list gmap strings.

Local Open Scope string_scope.
Local Open Scope list_scope.

(** ** The JS runtime, as far as the program uses it *)

Module JS.

(** Outcome of an operation that may throw. *)
Inductive completion (A : Type) : Type :=
| Normal (a : A)
| Throw.
Arguments Normal {A} a.
Arguments Throw {A}.

(** White space and line terminators of the ASCII range:
    TAB, LF, VT, FF, CR and SPACE. *)
Definition isWhiteSpace (c : ascii) : bool :=
  let n := N_of_ascii c in
  (N.leb 9 n && N.leb n 13) || N.eqb n 32.

Fixpoint trimStart (s : string) : string :=
  match s with
  | EmptyString => EmptyString
  | String c r => if isWhiteSpace c then trimStart r else s
  end.

Fixpoint trimEnd (s : string) : string :=
  match s with
  | EmptyString => EmptyString
  | String c r =>
      match trimEnd r with
      | EmptyString => if isWhiteSpace c then EmptyString else String c EmptyString
      | r' => String c r'
      end
  end.

(** [s.trim()], for a text of ASCII characters *)
Definition trim (s : string) : string := trimEnd (trimStart s).

Definition upperChar (c : ascii) : ascii :=
  let n := N_of_ascii c in
  if N.leb 97 n && N.leb n 122 then ascii_of_N (n - 32) else c.

(** [s.toUpperCase()], for a text of ASCII characters *)
Fixpoint toUpperCase (s : string) : string :=
  match s with
  | EmptyString => EmptyString
  | String c r => String (upperChar c) (toUpperCase r)
  end.

Definition digitValue (c : ascii) : option Z :=
  let n := N_of_ascii c in
  if N.leb 48 n && N.leb n 57 then Some (Z.of_N (n - 48)) else None.

(** Value of the longest prefix of decimal digits, continuing from [acc]. *)
Fixpoint digitsValue (acc : Z) (s : string) : Z :=
  match s with
  | EmptyString => acc
  | String c r =>
      match digitValue c with
      | Some d => digitsValue (10 * acc + d) r
      | None => acc
      end
  end.

Definition startsWithDigit (s : string) : bool :=
  match s with
  | String c _ => bool_decide (is_Some (digitValue c))
  | EmptyString => false
  end.

(** [parseInt(s, 10)], for a text of ASCII characters: leading white
    space is skipped, one sign is read, then the longest run of digits;
    [None] is [NaN].  The numeric value is
    kept exact: the only use the program makes of it is to look it up among
    the five stage indices, which no rounding reaches. *)
Definition parseInt (s : string) : option Z :=
  let t := trimStart s in
  let '(sign, body) :=
    match t with
    | String "-" r => ((-1)%Z, r)
    | String "+" r => (1%Z, r)
    | _ => (1%Z, t)
    end in
  if startsWithDigit body then Some (sign * digitsValue 0 body)%Z else None.

(** Truthiness of a [string | null]. *)
Definition truthy (v : option string) : bool :=
  match v with
  | Some s => negb (String.eqb s "")
  | None => false
  end.

(** *** localStorage *)

Record Storage : Type := mkStorage {
  items : gmap string string;
  accessible : bool
}.

Definition getItem (ls : Storage) (key : string) : completion (option string) :=
  if accessible ls then Normal (items ls !! key) else Throw.

Definition setItem (ls : Storage) (key value : string) : completion Storage :=
  if accessible ls then Normal (mkStorage (<[key:=value]> (items ls)) true) else Throw.

Definition removeItem (ls : Storage) (key : string) : completion Storage :=
  if accessible ls then Normal (mkStorage (delete key (items ls)) true) else Throw.

End JS.

Import JS.

(** ** Stages and the loaders of persisted state *)

Inductive GameStage : Type :=
| START
| KNOWLEDGE
| CONQUER
| DRAG_PUZZLE
| FINAL_CARD.

(** Numeric value of an enum member. *)
Definition stageIndex (s : GameStage) : Z :=
  match s with
  | START => 0
  | KNOWLEDGE => 1
  | CONQUER => 2
  | DRAG_PUZZLE => 3
  | FINAL_CARD => 4
  end.

(** The reverse mapping [GameStage[n]]; [None] is [undefined]. *)
Definition stageOfIndex (n : Z) : option GameStage :=
  match n with
  | 0%Z => Some START
  | 1%Z => Some KNOWLEDGE
  | 2%Z => Some CONQUER
  | 3%Z => Some DRAG_PUZZLE
  | 4%Z => Some FINAL_CARD
  | _ => None
  end.

Definition CACHE_KEY : string := "paranormalEnigmaStage".
Definition MUTE_CACHE_KEY : string := "paranormalEnigmaMuted".

Definition getInitialStage (ls : Storage) : GameStage :=
  match getItem ls CACHE_KEY with
  | Normal (Some savedStage) =>
      if truthy (Some savedStage) then
        match parseInt savedStage with
        | Some parsedStage =>
            match stageOfIndex parsedStage with
            | Some s => s
            | None => START
            end
        | None => START
        end
      else START
  | Normal None => START
  | Throw => START
  end.

(** What [JSON.parse] hands back, as far as the mute flag goes: a boolean,
    or a value of another kind, which the loader returns as it is. *)
Inductive JSONValue : Type :=
| JBoolean (b : bool)
| JNonBoolean.

Section MuteFlag.

(** [JSON.parse] of the runtime; it throws on texts that are not JSON. *)
Variable JSON_parse : string -> completion JSONValue.

Definition getInitialMuteState (ls : Storage) : JSONValue :=
  match getItem ls MUTE_CACHE_KEY with
  | Normal (Some savedMuteState) =>
      if truthy (Some savedMuteState) then
        match JSON_parse savedMuteState with
        | Normal v => v
        | Throw => JBoolean false
        end
      else JBoolean false
  | Normal None => JBoolean false
  | Throw => JBoolean false
  end.

End MuteFlag.

(** A parser of the two boolean literals alone, to run the loader on. *)
Definition parseBooleanLiteral (s : string) : completion JSONValue :=
  if String.eqb s "true" then Normal (JBoolean true)
  else if String.eqb s "false" then Normal (JBoolean false)
  else Throw.

(** Storage holding exactly the given entries. *)
Definition storageOf (entries : list (string * string)) : Storage :=
  mkStorage (list_to_map entries) true.

(** Storage the browser refuses to hand out. *)
Definition blockedStorage : Storage := mkStorage ∅ false.

(** ** The answer form *)

Module App.

Record StageData : Type := mkStageData {
  prompt : string;
  correctAnswer : string;
  nextStage : GameStage
}.

Definition STAGES_DATA (s : GameStage) : StageData :=
  match s with
  | START =>
      mkStageData "ILUMINE sua mente e veja os REFLEXOS de suas ações… digite o que descobriu."
                  "CONHECIMENTO" KNOWLEDGE
  | KNOWLEDGE =>
      mkStageData "Conecte-se ao Outro Lado e entenda suas mensagens."
                  "CONQUISTAR" CONQUER
  | CONQUER =>
      mkStageData "O fim é próximo e inevitável, mas você percebe a presença do vazio?"
                  "BUSQUE" DRAG_PUZZLE
  | DRAG_PUZZLE =>
      mkStageData "Revele a frase oculta nas centelhas de conhecimento que já lhe foram dadas."
                  "" FINAL_CARD
  | FINAL_CARD =>
      mkStageData "Você se provou um bom agente, contate o Oficial de Operações Rafael M. para receber sua recompensa"
                  "" FINAL_CARD
  end.

(** The pieces of component state that [handleSubmit] reads or writes. *)
Record State : Type := mkState {
  stage : GameStage;
  inputValue : string;
  error : option string;
  isLoading : bool;
  hasInteracted : bool
}.

(** The values [useState] starts from when the page is (re)loaded. *)
Definition initialState (ls : Storage) : State :=
  mkState (getInitialStage ls) "" None true false.

Definition OVERRIDE_CODE : string := "0413".
Definition WRONG_ANSWER : string :=
  "As palavras erradas ecoam no vazio. Há algo que você ainda não compreendeu…".
Definition CANNOT_ERASE : string := "Não foi possível apagar o progresso.".

(** [inputValue.trim().toUpperCase()] *)
Definition formatInput (raw : string) : string := toUpperCase (trim raw).

(** What a submission leaves behind: the component with the state the
    handler has set and the storage as the handler leaves it, or the page
    reloaded (the component state is then rebuilt by [initialState] from
    the storage).  The effects that write the stage to the storage and
    start the fade-in run after a render in which [stage] has changed; they
    are not part of the handler. *)
Inductive Outcome : Type :=
| Rendered (st : State) (ls : Storage)
| Reloaded (ls : Storage).

(** [stage >= GameStage.DRAG_PUZZLE] *)
Definition atOrPastPuzzle (s : GameStage) : bool :=
  Z.leb (stageIndex DRAG_PUZZLE) (stageIndex s).

(** The first variant of the app also records the interaction (to unlock
    audio) after the guard; the second one has no such line.  No statement
    below looks at [hasInteracted]. *)
Definition handleSubmit (st : State) (ls : Storage) : Outcome :=
  if isLoading st || atOrPastPuzzle (stage st) then Rendered st ls
  else
    let interacted := if hasInteracted st then hasInteracted st else true in
    let formattedInput := formatInput (inputValue st) in
    if String.eqb formattedInput OVERRIDE_CODE then
      match removeItem ls CACHE_KEY with
      | Normal ls' => Reloaded ls'
      | Throw =>
          Rendered (mkState (stage st) (inputValue st) (Some CANNOT_ERASE)
                            (isLoading st) interacted) ls
      end
    else
      let currentStageData := STAGES_DATA (stage st) in
      if String.eqb formattedInput (correctAnswer currentStageData) then
        Rendered (mkState (nextStage currentStageData) "" None
                          (isLoading st) interacted) ls
      else
        Rendered (mkState (stage st) "" (Some WRONG_ANSWER)
                          (isLoading st) interacted) ls.

(** The stage shown after the outcome. *)
Definition stageAfter (o : Outcome) : GameStage :=
  match o with
  | Rendered st _ => stage st
  | Reloaded ls => stage (initialState ls)
  end.

(** The error shown after the outcome. *)
Definition errorAfter (o : Outcome) : option string :=
  match o with
  | Rendered st _ => error st
  | Reloaded ls => error (initialState ls)
  end.

(** The storage after the outcome. *)
Definition storageAfter (o : Outcome) : Storage :=
  match o with
  | Rendered _ ls => ls
  | Reloaded ls => ls
  end.

Definition restartSignalled (o : Outcome) : bool :=
  match o with
  | Rendered _ _ => false
  | Reloaded _ => true
  end.

End App.

(** ** The word puzzle *)

Module DragPuzzle.

(** An element of [droppedWords].  Its declared type is [string | null];
    reading past the end of the array gives [undefined], and writing past
    the end leaves holes that read as [undefined] too. *)
Inductive cell : Type :=
| Null
| Undefined
| Word (w : string).

#[global] Instance cell_eq_dec : EqDecision cell.
Proof. solve_decision. Defined.

(** [a[i]] *)
Definition at_index (a : list cell) (i : nat) : cell :=
  default Undefined (a !! i).

(** The copy [b = [...a]] after [b[i] = v]. *)
Definition assign (a : list cell) (i : nat) (v : cell) : list cell :=
  if decide (i < length a) then <[i:=v]> a
  else a ++ replicate (i - length a) Undefined ++ [v].

(** [c !== null] *)
Definition notNull (c : cell) : bool :=
  match c with
  | Null => false
  | _ => true
  end.

(** Truthiness of an element. *)
Definition cellTruthy (c : cell) : bool :=
  match c with
  | Word w => truthy (Some w)
  | _ => false
  end.

(** How [join] prints an element: [null] and [undefined] print as nothing. *)
Definition cellText (c : cell) : string :=
  match c with
  | Word w => w
  | _ => ""
  end.

(** [a.join(sep)] *)
Definition join (sep : string) (a : list cell) : string :=
  String.concat sep (map cellText a).

(** The words held by the slots, in slot order. *)
Definition placedWords (a : list cell) : list string :=
  omap (fun c => match c with Word w => Some w | _ => None end) a.

(** What [setTimeout] was given. *)
Inductive Callback : Type :=
| OnSolve
| ResetWords.

Record State : Type := mkState {
  draggableWords : list string;
  droppedWords : list cell;
  error : option string;
  selectedWord : option string;
  timers : list (Callback * nat)
}.

Definition VOCABULARY : list string := ["CONHECIMENTO"; "CONQUISTAR"; "BUSQUE"].
Definition CORRECT_SEQUENCE : string := "BUSQUE CONQUISTAR CONHECIMENTO".
Definition INCORRECT_SEQUENCE : string :=
  "A sequência está incorreta. As palavras retornam ao caos.".

(** [setTimeout(cb, ms)] *)
Definition setTimeout (cb : Callback) (ms : nat) (st : State) : State :=
  mkState (draggableWords st) (droppedWords st) (error st) (selectedWord st)
          (timers st ++ [(cb, ms)]).

Definition setError (e : option string) (st : State) : State :=
  mkState (draggableWords st) (droppedWords st) e (selectedWord st) (timers st).

Definition setSelectedWord (w : option string) (st : State) : State :=
  mkState (draggableWords st) (droppedWords st) (error st) w (timers st).

Definition checkSequence (sequence : list cell) (st : State) : State :=
  if forallb notNull sequence then
    if String.eqb (toUpperCase (join " " sequence)) CORRECT_SEQUENCE then
      setTimeout OnSolve 1000 (setError None st)
    else
      setTimeout ResetWords 2000 (setError (Some INCORRECT_SEQUENCE) st)
  else st.

Definition handleDragStart (word : string) (st : State) : State :=
  setSelectedWord None st.

(** [word] is the text carried by the drop event. *)
Definition handleDrop (word : string) (slotIndex : nat) (st : State) : State :=
  if negb (bool_decide (word ∈ draggableWords st))
     || notNull (at_index (droppedWords st) slotIndex)
  then st
  else
    let newDroppedWords := assign (droppedWords st) slotIndex (Word word) in
    let newDraggableWords := filter (fun w => w ≠ word) (draggableWords st) in
    checkSequence newDroppedWords
      (mkState newDraggableWords newDroppedWords (error st) (selectedWord st) (timers st)).

Definition handleWordClick (word : string) (st : State) : State :=
  setSelectedWord
    (if bool_decide (selectedWord st = Some word) then None else Some word) st.

Definition handleSlotClick (slotIndex : nat) (st : State) : State :=
  let slot := at_index (droppedWords st) slotIndex in
  if truthy (selectedWord st) && negb (cellTruthy slot) then
    (* [selectedWord] is a string here *)
    let selected := default "" (selectedWord st) in
    let newDroppedWords := assign (droppedWords st) slotIndex (Word selected) in
    let newDraggableWords := filter (fun w => w ≠ selected) (draggableWords st) in
    checkSequence newDroppedWords
      (mkState newDraggableWords newDroppedWords (error st) None (timers st))
  else if cellTruthy slot then
    (* [droppedWords[slotIndex] as string] *)
    let wordToReturn := cellText slot in
    mkState (draggableWords st ++ [wordToReturn])
            (assign (droppedWords st) slotIndex Null)
            (error st) None (timers st)
  else st.

Inductive Event : Type :=
| DragStart (word : string)
| Drop (word : string) (slotIndex : nat)
| WordClick (word : string)
| SlotClick (slotIndex : nat)
| Timeout (k : nat).

Section Component.

(** The order the words are first shown in: fixed in one variant of the
    app, shuffled once when the component is created in the other. *)
Variable INITIAL_WORDS : list string.

Definition initialState : State :=
  mkState INITIAL_WORDS [Null; Null; Null] None None [].

(** The body of a callback passed to [setTimeout].  [onSolve] belongs to
    the parent, which leaves the puzzle stage; nothing of the puzzle
    changes. *)
Definition runCallback (cb : Callback) (st : State) : State :=
  match cb with
  | OnSolve => st
  | ResetWords =>
      mkState INITIAL_WORDS [Null; Null; Null] None (selectedWord st) (timers st)
  end.

(** The [k]-th pending timer expires.  Timers are let expire in any
    order, which covers the order the delays impose. *)
Definition timeout (k : nat) (st : State) : State :=
  match timers st !! k with
  | Some (cb, _) =>
      runCallback cb
        (mkState (draggableWords st) (droppedWords st) (error st)
                 (selectedWord st) (delete k (timers st)))
  | None => st
  end.

Definition handle (e : Event) (st : State) : State :=
  match e with
  | DragStart w => handleDragStart w st
  | Drop w i => handleDrop w i st
  | WordClick w => handleWordClick w st
  | SlotClick i => handleSlotClick i st
  | Timeout k => timeout k st
  end.

Definition run (es : list Event) (st : State) : State :=
  fold_left (fun s e => handle e s) es st.

End Component.

(** The state the component is meant to stay in: the three words, each
    once, spread over the pool and the three slots, and a selection that is
    a word still in the pool. *)
Definition wellFormed (st : State) : Prop :=
  draggableWords st ++ placedWords (droppedWords st) ≡ₚ VOCABULARY
  /\ length (droppedWords st) = 3
  /\ Forall (fun c => c <> Undefined) (droppedWords st)
  /\ (forall w, selectedWord st = Some w -> w ∈ draggableWords st).

(** Events as the page can deliver them on a well-formed state: clicks come
    from the rendered words and slots; a drop may carry any text to any
    index.  [Drop] alone bears a condition on the state: the word dropped
    is not the selected one (a drag begun on a word of the pool ensures it,
    [handleDragStart] clears the selection; a drop of text dragged from
    elsewhere does not). *)
Definition admissible (st : State) (e : Event) : Prop :=
  match e with
  | DragStart _ => True
  | Drop w _ => selectedWord st <> Some w
  | WordClick w => w ∈ draggableWords st
  | SlotClick i => i < 3
  | Timeout _ => True
  end.

Fixpoint admissibleTrace (INITIAL_WORDS : list string) (st : State) (es : list Event) : Prop :=
  match es with
  | [] => True
  | e :: es' => admissible st e /\ admissibleTrace INITIAL_WORDS (handle INITIAL_WORDS e st) es'
  end.

End DragPuzzle.


(** Texts of ASCII characters only.  On these [trim], [toUpperCase] and
    [parseInt] above do what the runtime does. *)
Fixpoint isASCII (s : string) : bool :=
  match s with
  | EmptyString => true
  | String c r => N.ltb (N_of_ascii c) 128 && isASCII r
  end.

(** [handleSubmit] with its constant [formattedInput] as an argument: what
    the handler does with the text the runtime has made of the input. *)
Definition submitFormatted (formattedInput : string) (st : App.State) (ls : Storage)
  : App.Outcome :=
  if App.isLoading st || App.atOrPastPuzzle (App.stage st) then App.Rendered st ls
  else
    let interacted := if App.hasInteracted st then App.hasInteracted st else true in
    if String.eqb formattedInput App.OVERRIDE_CODE then
      match removeItem ls CACHE_KEY with
      | Normal ls' => App.Reloaded ls'
      | Throw =>
          App.Rendered
            (App.mkState (App.stage st) (App.inputValue st) (Some App.CANNOT_ERASE)
                         (App.isLoading st) interacted) ls
      end
    else
      let currentStageData := App.STAGES_DATA (App.stage st) in
      if String.eqb formattedInput (App.correctAnswer currentStageData) then
        App.Rendered
          (App.mkState (App.nextStage currentStageData) "" None
                       (App.isLoading st) interacted) ls
      else
        App.Rendered
          (App.mkState (App.stage st) "" (Some App.WRONG_ANSWER)
                       (App.isLoading st) interacted) ls.

(** Texts made of white space only (the empty text among them). *)
Fixpoint allWhiteSpace (s : string) : bool :=
  match s with
  | EmptyString => true
  | String c r => isWhiteSpace c && allWhiteSpace r
  end.

(** ** Writing the preferences back, and the page as a whole *)

#[global] Instance GameStage_eq_dec : EqDecision GameStage.
Proof. solve_decision. Defined.

#[global] Instance JSONValue_eq_dec : EqDecision JSONValue.
Proof. solve_decision. Defined.

(** [stage.toString()] *)
Definition stageText (s : GameStage) : string :=
  match s with
  | START => "0"
  | KNOWLEDGE => "1"
  | CONQUER => "2"
  | DRAG_PUZZLE => "3"
  | FINAL_CARD => "4"
  end.

(** The effect on [stage]: the write is tried, a failure is logged only. *)
Definition persistStage (s : GameStage) (ls : Storage) : Storage :=
  match setItem ls CACHE_KEY (stageText s) with
  | Normal ls' => ls'
  | Throw => ls
  end.

(** The pieces of the runtime the mute flag goes through: [JSON.parse],
    [JSON.stringify] and the truthiness that [!isMuted] tests. *)
Record JSONRuntime : Type := mkJSONRuntime {
  JSON_parse : string -> completion JSONValue;
  JSON_stringify : JSONValue -> string;
  toBoolean : JSONValue -> bool
}.

(** What is known of them on booleans. *)
Definition booleanText (b : bool) : string := if b then "true" else "false".

Definition standardOnBooleans (rt : JSONRuntime) : Prop :=
  forall b,
    JSON_stringify rt (JBoolean b) = booleanText b
    /\ JSON_parse rt (booleanText b) = Normal (JBoolean b)
    /\ toBoolean rt (JBoolean b) = b.

(** A runtime that knows the booleans and nothing else, to run the page on. *)
Definition booleanRuntime : JSONRuntime :=
  mkJSONRuntime parseBooleanLiteral
    (fun v => match v with JBoolean b => booleanText b | JNonBoolean => "null" end)
    (fun v => match v with JBoolean b => b | JNonBoolean => false end).

(** The effect on [isMuted]. *)
Definition persistMute (rt : JSONRuntime) (m : JSONValue) (ls : Storage) : Storage :=
  match setItem ls MUTE_CACHE_KEY (JSON_stringify rt m) with
  | Normal ls' => ls'
  | Throw => ls
  end.

(** The [App] component of the first variant with its effects: the state
    [handleSubmit] works on, the mute flag, the content built for a stage
    (kept as that stage; [None] is the initial [null]), the 500 ms timers
    that will install a content (each with the stage of the render that set
    it, oldest first: they all have the same delay) and the storage.  The
    audio element and the input focus are left out. *)
Module Page.

Record State : Type := mkState {
  app : App.State;
  isMuted : JSONValue;
  content : option GameStage;
  pending : list GameStage;
  storage : Storage
}.

(** What can happen to the page: the input's [onChange], the form's
    [onSubmit], a click on the mute button, the first click or key press
    seen by the window, the expiry of the oldest content timer, the
    [onSolve] handed to the puzzle, and a reload by the user. *)
Inductive Event : Type :=
| Change (text : string)
| Submit
| ToggleMute
| Interact
| ContentTimer
| Solve
| Reload.

Definition withApp (a : App.State) (p : State) : State :=
  mkState a (isMuted p) (content p) (pending p) (storage p).

Definition withStorage (ls : Storage) (p : State) : State :=
  mkState (app p) (isMuted p) (content p) (pending p) ls.

Section Runtime.

Variable rt : JSONRuntime.

(** The two effects with [stage] as dependency: the stage is written to
    the storage; the content fades out and a timer is set to build the
    content of this stage. *)
Definition stageEffects (p : State) : State :=
  mkState
    (App.mkState (App.stage (app p)) (App.inputValue (app p)) (App.error (app p))
                 true (App.hasInteracted (app p)))
    (isMuted p) (content p)
    (pending p ++ [App.stage (app p)])
    (persistStage (App.stage (app p)) (storage p)).

Definition muteEffects (p : State) : State :=
  withStorage (persistMute rt (isMuted p) (storage p)) p.

(** First render: every effect runs. *)
Definition mount (ls : Storage) : State :=
  muteEffects
    (stageEffects
       (mkState (App.initialState ls) (getInitialMuteState (JSON_parse rt) ls)
                None [] ls)).

(** After a handler: the effects whose dependency has changed. *)
Definition afterRender (old new : State) : State :=
  let staged :=
    if decide (App.stage (app new) = App.stage (app old)) then new
    else stageEffects new in
  if decide (isMuted new = isMuted old) then staged else muteEffects staged.

Definition handle (e : Event) (p : State) : State :=
  match e with
  | Change text =>
      withApp (App.mkState (App.stage (app p)) text (App.error (app p))
                           (App.isLoading (app p)) (App.hasInteracted (app p))) p
  | Submit =>
      match App.handleSubmit (app p) (storage p) with
      | App.Rendered st ls => afterRender p (withStorage ls (withApp st p))
      | App.Reloaded ls => mount ls
      end
  | ToggleMute =>
      (* the click on the button also reaches the listener of the window *)
      afterRender p
        (mkState (App.mkState (App.stage (app p)) (App.inputValue (app p))
                              (App.error (app p)) (App.isLoading (app p)) true)
                 (JBoolean (negb (toBoolean rt (isMuted p))))
                 (content p) (pending p) (storage p))
  | Interact =>
      withApp (App.mkState (App.stage (app p)) (App.inputValue (app p))
                           (App.error (app p)) (App.isLoading (app p))
                           (if App.hasInteracted (app p)
                            then App.hasInteracted (app p) else true)) p
  | ContentTimer =>
      match pending p with
      | [] => p
      | s :: rest =>
          mkState (App.mkState (App.stage (app p)) (App.inputValue (app p))
                               (App.error (app p)) false (App.hasInteracted (app p)))
                  (isMuted p) (Some s) rest (storage p)
      end
  | Solve =>
      afterRender p
        (withApp (App.mkState FINAL_CARD (App.inputValue (app p)) (App.error (app p))
                              (App.isLoading (app p)) (App.hasInteracted (app p))) p)
  | Reload => mount (storage p)
  end.

Definition run (es : list Event) (p : State) : State :=
  fold_left (fun q e => handle e q) es p.

End Runtime.

(** What the effects maintain.  The storage, when it can be used, holds
    the text of the current stage and the printed mute flag. *)
Definition stored (rt : JSONRuntime) (p : State) : Prop :=
  accessible (storage p) = true ->
  getItem (storage p) CACHE_KEY = Normal (Some (stageText (App.stage (app p))))
  /\ getItem (storage p) MUTE_CACHE_KEY = Normal (Some (JSON_stringify rt (isMuted p))).

(** While the content is hidden a timer is pending; the youngest pending
    timer is for the current stage; with no timer pending the content on
    screen is that of the current stage and it is shown. *)
Definition settled (p : State) : Prop :=
  (App.isLoading (app p) = true -> pending p <> [])
  /\ (pending p <> [] -> last (pending p) = Some (App.stage (app p)))
  /\ (pending p = [] -> content p = Some (App.stage (app p))).

Definition consistent (rt : JSONRuntime) (p : State) : Prop :=
  stored rt p /\ settled p.

End Page.

(** ** Ways of playing the puzzle *)

#[global] Instance puzzle_callback_eq_dec : EqDecision DragPuzzle.Callback.
Proof. solve_decision. Defined.

(** The pending timers that will call [onSolve]. *)
Definition solveTimers (st : DragPuzzle.State) : list (DragPuzzle.Callback * nat) :=
  filter (fun t => t.1 = DragPuzzle.OnSolve) (DragPuzzle.timers st).

(** The three placements that spell the sentence, as word and slot. *)
Definition SOLUTION : list (string * nat) :=
  [("BUSQUE", 0); ("CONQUISTAR", 1); ("CONHECIMENTO", 2)].

(** Placements made by drag and drop, and by a click on the word then on
    the slot. *)
Definition byDrag (moves : list (string * nat)) : list DragPuzzle.Event :=
  map (fun m => DragPuzzle.Drop m.1 m.2) moves.

Definition byClick (moves : list (string * nat)) : list DragPuzzle.Event :=
  flat_map (fun m => [DragPuzzle.WordClick m.1; DragPuzzle.SlotClick m.2]) moves.

(** ** The opening screen of the second variant *)

Module Opening.

Inductive Phase : Type :=
| fadeIn
| glitching
| idle
| fadeOut.

(** What [setTimeout] was given. *)
Inductive Callback : Type :=
| SetGlitching
| SetIdle
| OnFinish.

#[global] Instance Callback_eq_dec : EqDecision Callback.
Proof. solve_decision. Defined.

(** A pending timer: its id, its callback, its delay. *)
Definition Timer : Type := (positive * Callback * nat)%type.

Definition timerId (t : Timer) : positive := t.1.1.
Definition timerCallback (t : Timer) : Callback := t.1.2.

(** The component with the two pieces of [App] state its [onFinish]
    writes, and the timers of the window.  Timer ids are integers above
    zero, hence truthy.  The sound played when the opening appears is left
    out. *)
Record State : Type := mkState {
  phase : Phase;
  finishCalled : bool;
  glitchTimerId : option positive;
  idleTimerId : option positive;
  timers : list Timer;
  nextTimerId : positive;
  showOpening : bool;
  hasInteracted : bool
}.

(** [window.setTimeout(cb, ms)]: the id handed out and the state after. *)
Definition setTimeout (cb : Callback) (ms : nat) (st : State) : positive * State :=
  (nextTimerId st,
   mkState (phase st) (finishCalled st) (glitchTimerId st) (idleTimerId st)
           (timers st ++ [(nextTimerId st, cb, ms)]) (Pos.succ (nextTimerId st))
           (showOpening st) (hasInteracted st)).

Definition withTimers (ts : list Timer) (st : State) : State :=
  mkState (phase st) (finishCalled st) (glitchTimerId st) (idleTimerId st)
          ts (nextTimerId st) (showOpening st) (hasInteracted st).

(** [clearTimeout(id)] *)
Definition clearTimeout (id : positive) (st : State) : State :=
  withTimers (filter (fun t => timerId t ≠ id) (timers st)) st.

(** [if (ref.current) clearTimeout(ref.current)] *)
Definition clearIfSet (ref : option positive) (st : State) : State :=
  match ref with
  | Some id => clearTimeout id st
  | None => st
  end.

Definition setPhase (ph : Phase) (st : State) : State :=
  mkState ph (finishCalled st) (glitchTimerId st) (idleTimerId st)
          (timers st) (nextTimerId st) (showOpening st) (hasInteracted st).

(** The page is loaded, [firstId] being the next id of the window: the
    opening is shown, and its effect sets the two timers. *)
Definition mount (firstId : positive) : State :=
  let st0 := mkState fadeIn false None None [] firstId true false in
  let '(g, st1) := setTimeout SetGlitching 2500 st0 in
  let st2 := mkState (phase st1) (finishCalled st1) (Some g) (idleTimerId st1)
                     (timers st1) (nextTimerId st1) (showOpening st1) (hasInteracted st1) in
  let '(i, st3) := setTimeout SetIdle 4500 st2 in
  mkState (phase st3) (finishCalled st3) (glitchTimerId st3) (Some i)
          (timers st3) (nextTimerId st3) (showOpening st3) (hasInteracted st3).

(** The cleanup of the effect, run when the component is taken down. *)
Definition cleanup (st : State) : State :=
  clearIfSet (idleTimerId st) (clearIfSet (glitchTimerId st) st).

Definition handleStart (st : State) : State :=
  match phase st with
  | fadeOut => st
  | _ =>
      if finishCalled st then st
      else
        let st1 := mkState (phase st) true (glitchTimerId st) (idleTimerId st)
                           (timers st) (nextTimerId st) (showOpening st)
                           (hasInteracted st) in
        let st2 := clearIfSet (glitchTimerId st1) st1 in
        let st3 := clearIfSet (idleTimerId st2) st2 in
        snd (setTimeout OnFinish 1500 (setPhase fadeOut st3))
  end.

(** [onFinish] of [App]: the opening is taken down (its cleanup runs) and
    the interaction is recorded. *)
Definition onFinish (st : State) : State :=
  cleanup
    (mkState (phase st) (finishCalled st) (glitchTimerId st) (idleTimerId st)
             (timers st) (nextTimerId st) false true).

Definition runCallback (cb : Callback) (st : State) : State :=
  match cb with
  | SetGlitching => setPhase glitching st
  | SetIdle => setPhase idle st
  | OnFinish => onFinish st
  end.

Inductive Event : Type :=
| Click
| TouchStart
| KeyDown
| Timeout (id : positive).

(** [unlockAudio], the listener [App] puts on the window for clicks,
    touches and key presses until an interaction is recorded. *)
Definition unlockAudio (st : State) : State :=
  mkState (phase st) (finishCalled st) (glitchTimerId st) (idleTimerId st)
          (timers st) (nextTimerId st) (showOpening st) true.

(** A click reaches [handleStart] while the opening is rendered, and the
    listener of the window; a touch or a key press reaches that listener;
    the timer with the given id, if pending, expires.  Timers are let
    expire in any order, which covers the order the delays impose. *)
Definition handle (e : Event) (st : State) : State :=
  match e with
  | Click => unlockAudio (if showOpening st then handleStart st else st)
  | TouchStart => unlockAudio st
  | KeyDown => unlockAudio st
  | Timeout id =>
      match filter (fun t => timerId t = id) (timers st) with
      | t :: _ => runCallback (timerCallback t) (clearTimeout id st)
      | [] => st
      end
  end.

Definition run (es : list Event) (st : State) : State :=
  fold_left (fun s e => handle e s) es st.

(** Pending timers with a given callback. *)
Definition pendingOf (cb : Callback) (st : State) : list Timer :=
  filter (fun t => timerCallback t = cb) (timers st).

(** Whether the event makes [onFinish] run, and how often it runs along a
    sequence of events. *)
Definition runsOnFinish (e : Event) (st : State) : bool :=
  match e with
  | Click | TouchStart | KeyDown => false
  | Timeout id =>
      match filter (fun t => timerId t = id) (timers st) with
      | t :: _ => bool_decide (timerCallback t = OnFinish)
      | [] => false
      end
  end.

Fixpoint finishCount (es : list Event) (st : State) : nat :=
  match es with
  | [] => 0
  | e :: es' =>
      (if runsOnFinish e st then 1 else 0) + finishCount es' (handle e st)
  end.

(** What the component maintains.  Before the click: the opening is shown,
    not fading out, and every pending timer is one of the two whose ids are
    kept.  After the click: the phase is [fadeOut], and either the opening
    is still shown with the [onFinish] timer as the only pending one, or it
    is gone, the interaction is recorded and no timer is left. *)
Definition steady (st : State) : Prop :=
  (finishCalled st = false ->
   showOpening st = true
   /\ phase st <> fadeOut
   /\ forall t, t ∈ timers st ->
                timerCallback t <> OnFinish
                /\ (glitchTimerId st = Some (timerId t)
                    \/ idleTimerId st = Some (timerId t)))
  /\ (finishCalled st = true ->
      phase st = fadeOut
      /\ ((showOpening st = true
           /\ exists id, timers st = [(id, OnFinish, 1500)])
          \/ (showOpening st = false /\ hasInteracted st = true /\ timers st = []))).

End Opening.

(** * Properties *)

(** ** Loading the persisted stage *)

Lemma parseInt_some_nonempty (s : string) (n : Z) :
  parseInt s = Some n -> truthy (Some s) = true.
Proof. destruct s; [discriminate | reflexivity]. Qed.

Lemma stageOfIndex_in_range (n : Z) :
  (0 <= n <= 4)%Z -> exists s, stageOfIndex n = Some s /\ stageIndex s = n.
Proof.
  intros Hn.
  assert (n = 0 \/ n = 1 \/ n = 2 \/ n = 3 \/ n = 4)%Z as Hcases by lia.
  destruct Hcases as [-> | [-> | [-> | [-> | ->]]]]; eexists; split; reflexivity.
Qed.

(** C7.  Loading the stage never fails and falls back to START: a stored
    "2" gives CONQUER; a stored "99" or "abc" gives START; so do a missing
    key and a storage that throws on access.  Whatever is stored, the
    result is START or the enum member whose index was parsed. *)
Theorem getInitialStage_fails_open :
  (forall ls, getItem ls CACHE_KEY = Normal (Some "2") -> getInitialStage ls = CONQUER)
  /\ (forall ls, getItem ls CACHE_KEY = Normal (Some "99") -> getInitialStage ls = START)
  /\ (forall ls, getItem ls CACHE_KEY = Normal (Some "abc") -> getInitialStage ls = START)
  /\ (forall ls, getItem ls CACHE_KEY = Normal None -> getInitialStage ls = START)
  /\ (forall ls, getItem ls CACHE_KEY = Throw -> getInitialStage ls = START)
  /\ (forall ls,
        getInitialStage ls = START
        \/ exists text n,
             getItem ls CACHE_KEY = Normal (Some text)
             /\ parseInt text = Some n
             /\ stageOfIndex n = Some (getInitialStage ls)).
Proof.
  split_and!; intros ls; unfold getInitialStage;
    try (intros ->; reflexivity).
  destruct (getItem ls CACHE_KEY) as [[text |] |]; auto.
  destruct (truthy (Some text)); auto.
  destruct (parseInt text) as [n |] eqn:Hparse; auto.
  destruct (stageOfIndex n) as [s |] eqn:Hstage; auto.
  right. exists text, n. auto.
Qed.

Lemma getInitialStage_fails_open_witness :
  getInitialStage (storageOf [(CACHE_KEY, "2")]) = CONQUER
  /\ getInitialStage (storageOf [(CACHE_KEY, "99")]) = START
  /\ getInitialStage (storageOf [(CACHE_KEY, "abc")]) = START
  /\ getInitialStage (storageOf [(MUTE_CACHE_KEY, "true")]) = START
  /\ getInitialStage blockedStorage = START.
Proof.
  destruct getInitialStage_fails_open as (H2 & H99 & Habc & Hnone & Hthrow & _).
  split_and!;
    [apply H2 | apply H99 | apply Habc | apply Hnone | apply Hthrow];
    vm_compute; reflexivity.
Defined.

(** C10.  A stored text need not be a bare index: whenever [parseInt] reads
    an n between 0 and 4 off its front, the stage with index n is loaded.
    "2abc" loads CONQUER and "3.9" loads DRAG_PUZZLE. *)
Theorem getInitialStage_numeric_prefix :
  (forall ls text n,
      getItem ls CACHE_KEY = Normal (Some text) ->
      parseInt text = Some n ->
      (0 <= n <= 4)%Z ->
      stageIndex (getInitialStage ls) = n)
  /\ parseInt "2abc" = Some 2%Z
  /\ getInitialStage (storageOf [(CACHE_KEY, "2abc")]) = CONQUER
  /\ parseInt "3.9" = Some 3%Z
  /\ getInitialStage (storageOf [(CACHE_KEY, "3.9")]) = DRAG_PUZZLE.
Proof.
  split; [| split_and!; vm_compute; reflexivity].
  intros ls text n Hget Hparse Hn. unfold getInitialStage.
  rewrite Hget, (parseInt_some_nonempty _ _ Hparse), Hparse.
  destruct (stageOfIndex_in_range n Hn) as (s & -> & Hs). exact Hs.
Qed.

Lemma getInitialStage_numeric_prefix_witness :
  stageIndex (getInitialStage (storageOf [(CACHE_KEY, " +1 of 4")])) = 1%Z.
Proof.
  apply (proj1 getInitialStage_numeric_prefix _ " +1 of 4" 1%Z);
    [vm_compute; reflexivity | vm_compute; reflexivity | lia].
Defined.

(** ** Loading the mute flag *)

(** C9.  With no stored mute value the flag starts as false; with the
    stored text "true" it starts as true; when reading the storage throws,
    or the stored text does not parse, it starts as false. *)
Theorem getInitialMuteState_spec (JSON_parse : string -> completion JSONValue) :
  JSON_parse "true" = Normal (JBoolean true) ->
  (forall ls, getItem ls MUTE_CACHE_KEY = Normal None ->
              getInitialMuteState JSON_parse ls = JBoolean false)
  /\ (forall ls, getItem ls MUTE_CACHE_KEY = Normal (Some "true") ->
                 getInitialMuteState JSON_parse ls = JBoolean true)
  /\ (forall ls, getItem ls MUTE_CACHE_KEY = Throw ->
                 getInitialMuteState JSON_parse ls = JBoolean false)
  /\ (forall ls text, getItem ls MUTE_CACHE_KEY = Normal (Some text) ->
                      JSON_parse text = Throw ->
                      getInitialMuteState JSON_parse ls = JBoolean false).
Proof.
  intros Htrue. unfold getInitialMuteState.
  split_and!.
  - intros ls ->. reflexivity.
  - intros ls ->. simpl. rewrite Htrue. reflexivity.
  - intros ls ->. reflexivity.
  - intros ls text -> ->. destruct (truthy (Some text)); reflexivity.
Qed.

Lemma getInitialMuteState_spec_witness :
  getInitialMuteState parseBooleanLiteral (storageOf [(CACHE_KEY, "2")]) = JBoolean false
  /\ getInitialMuteState parseBooleanLiteral (storageOf [(MUTE_CACHE_KEY, "true")]) = JBoolean true
  /\ getInitialMuteState parseBooleanLiteral blockedStorage = JBoolean false
  /\ getInitialMuteState parseBooleanLiteral (storageOf [(MUTE_CACHE_KEY, "{mute")]) = JBoolean false.
Proof.
  destruct (getInitialMuteState_spec parseBooleanLiteral eq_refl)
    as (Habsent & Htrue & Hthrow & Hbad).
  split_and!.
  - apply Habsent. vm_compute. reflexivity.
  - apply Htrue. vm_compute. reflexivity.
  - apply Hthrow. vm_compute. reflexivity.
  - apply (Hbad _ "{mute"); vm_compute; reflexivity.
Defined.

(** ** Submitting an answer *)

Lemma atOrPastPuzzle_cases (s : GameStage) :
  App.atOrPastPuzzle s = true <-> s = DRAG_PUZZLE \/ s = FINAL_CARD.
Proof.
  destruct s; simpl; split; intros H; auto;
    solve [discriminate | destruct H; discriminate].
Qed.

(** The handler is [submitFormatted] on the formatted input. *)
Lemma handleSubmit_formatted (st : App.State) (ls : Storage) :
  App.handleSubmit st ls = submitFormatted (App.formatInput (App.inputValue st)) st ls.
Proof. reflexivity. Qed.

(** The handler past its guard, on a text that is not the override code. *)
Lemma submitFormatted_answer (formatted : string) (st : App.State) (ls : Storage) :
  App.isLoading st = false ->
  App.atOrPastPuzzle (App.stage st) = false ->
  formatted <> App.OVERRIDE_CODE ->
  submitFormatted formatted st ls =
    if String.eqb formatted (App.correctAnswer (App.STAGES_DATA (App.stage st)))
    then App.Rendered
           (App.mkState (App.nextStage (App.STAGES_DATA (App.stage st))) "" None
                        false (if App.hasInteracted st then App.hasInteracted st else true)) ls
    else App.Rendered
           (App.mkState (App.stage st) "" (Some App.WRONG_ANSWER)
                        false (if App.hasInteracted st then App.hasInteracted st else true)) ls.
Proof.
  intros Hload Hstage Hcode. unfold submitFormatted.
  rewrite Hload, Hstage. simpl.
  apply String.eqb_neq in Hcode. rewrite Hcode. reflexivity.
Qed.

(** C1.  On the form as it can be submitted (the content is shown:
    [isLoading] is false), at a stage before DRAG_PUZZLE and whatever text
    other than the override code the input has been formatted to: the
    stage becomes the next stage and the error is cleared exactly when the
    formatted input is the stage's answer; otherwise the stage stays and the
    error message is set.  For an ASCII input the formatted text is
    [formatInput] of it.  So "conhecimento" at START leads to KNOWLEDGE
    with no error, and "xyz" at START stays at START with the error set. *)
Theorem submitAnswer_compares_with_answer :
  (forall (formatted : string) (st : App.State) (ls : Storage),
      App.isLoading st = false ->
      App.atOrPastPuzzle (App.stage st) = false ->
      formatted <> App.OVERRIDE_CODE ->
      let answer := App.correctAnswer (App.STAGES_DATA (App.stage st)) in
      let next := App.nextStage (App.STAGES_DATA (App.stage st)) in
      let after := submitFormatted formatted st ls in
      ((App.stageAfter after = next /\ App.errorAfter after = None)
         <-> formatted = answer)
      /\ (formatted <> answer ->
          App.stageAfter after = App.stage st
          /\ App.errorAfter after = Some App.WRONG_ANSWER)
      /\ App.restartSignalled after = false)
  /\ (forall (st : App.State) (ls : Storage),
        isASCII (App.inputValue st) = true ->
        App.handleSubmit st ls
        = submitFormatted (App.formatInput (App.inputValue st)) st ls)
  /\ (forall e i ls,
        let after := App.handleSubmit (App.mkState START "conhecimento" e false i) ls in
        App.stageAfter after = KNOWLEDGE /\ App.errorAfter after = None)
  /\ (forall e i ls,
        let after := App.handleSubmit (App.mkState START "xyz" e false i) ls in
        App.stageAfter after = START /\ App.errorAfter after = Some App.WRONG_ANSWER).
Proof.
  split_and!.
  - intros formatted st ls Hload Hstage Hcode answer next after.
    subst after. rewrite (submitFormatted_answer formatted st ls Hload Hstage Hcode).
    fold answer. fold next.
    destruct (String.eqb_spec formatted answer) as [Heq | Hne]; simpl.
    + split_and!; try reflexivity; [tauto | intros Hne; contradiction].
    + split_and!; try reflexivity; [| auto].
      split; [| intros Heq; contradiction].
      intros [_ Herr]. discriminate.
  - intros st ls _. apply handleSubmit_formatted.
  - intros e i ls. split; reflexivity.
  - intros e i ls. split; reflexivity.
Qed.

Lemma submitAnswer_compares_with_answer_witness :
  App.stageAfter
    (submitFormatted "CONQUISTAR" (App.mkState KNOWLEDGE " Conquistar " None false true)
                     (storageOf [(CACHE_KEY, "1")])) = CONQUER
  /\ App.handleSubmit (App.mkState KNOWLEDGE " Conquistar " None false true)
                      (storageOf [(CACHE_KEY, "1")])
     = submitFormatted "CONQUISTAR" (App.mkState KNOWLEDGE " Conquistar " None false true)
                       (storageOf [(CACHE_KEY, "1")]).
Proof.
  destruct submitAnswer_compares_with_answer as (Hgen & Hascii & _ & _).
  split.
  - destruct (Hgen "CONQUISTAR" (App.mkState KNOWLEDGE " Conquistar " None false true)
                   (storageOf [(CACHE_KEY, "1")])) as (Hiff & _);
      [reflexivity | reflexivity | discriminate |].
    apply Hiff. reflexivity.
  - apply (Hascii (App.mkState KNOWLEDGE " Conquistar " None false true)
                  (storageOf [(CACHE_KEY, "1")])).
    reflexivity.
Defined.

(** C2, as stated, fails on three counts: at DRAG_PUZZLE the handler
    returns before it looks at the input; while the stage content is
    loading it does the same; and when the storage cannot be used the
    progress is kept and an error is shown instead. *)
Lemma override_counterexample :
  ~ (forall (st : App.State) (ls : Storage),
        App.stage st <> FINAL_CARD ->
        App.formatInput (App.inputValue st) = App.OVERRIDE_CODE ->
        items (App.storageAfter (App.handleSubmit st ls)) !! CACHE_KEY = None
        /\ App.stageAfter (App.handleSubmit st ls) = START)
  /\ (let st := App.mkState DRAG_PUZZLE "0413" None false true in
      let ls := storageOf [(CACHE_KEY, "3")] in
      App.handleSubmit st ls = App.Rendered st ls
      /\ items ls !! CACHE_KEY = Some "3")
  /\ (let st := App.mkState CONQUER "0413" None true true in
      let ls := storageOf [(CACHE_KEY, "2")] in
      App.handleSubmit st ls = App.Rendered st ls
      /\ items ls !! CACHE_KEY = Some "2")
  /\ (let st := App.mkState KNOWLEDGE "0413" None false true in
      App.handleSubmit st blockedStorage
      = App.Rendered (App.mkState KNOWLEDGE "0413" (Some App.CANNOT_ERASE) false true)
                     blockedStorage).
Proof.
  split_and!.
  - intros Hclaim.
    destruct (Hclaim (App.mkState DRAG_PUZZLE "0413" None false true)
                     (storageOf [(CACHE_KEY, "3")])) as [_ Hstage];
      [discriminate | reflexivity |].
    vm_compute in Hstage. discriminate.
  - split; vm_compute; reflexivity.
  - split; vm_compute; reflexivity.
  - vm_compute. reflexivity.
Qed.

(** C2, amended.  At a stage before DRAG_PUZZLE (START, KNOWLEDGE or
    CONQUER), once the content is shown and when the storage can be used,
    an input that formats to "0413" removes the persisted stage and
    reloads the page, which starts again at START; the code is looked at
    before the stage's answer.  When the storage cannot be used the stage is
    kept and an error is shown. *)
Theorem override_restarts_before_puzzle :
  (forall (st : App.State) (ls : Storage),
      App.isLoading st = false ->
      App.atOrPastPuzzle (App.stage st) = false ->
      App.formatInput (App.inputValue st) = App.OVERRIDE_CODE ->
      accessible ls = true ->
      let after := App.handleSubmit st ls in
      after = App.Reloaded (mkStorage (delete CACHE_KEY (items ls)) true)
      /\ items (App.storageAfter after) !! CACHE_KEY = None
      /\ App.restartSignalled after = true
      /\ App.stageAfter after = START)
  /\ (forall (st : App.State) (ls : Storage),
        App.isLoading st = false ->
        App.atOrPastPuzzle (App.stage st) = false ->
        App.formatInput (App.inputValue st) = App.OVERRIDE_CODE ->
        accessible ls = false ->
        let after := App.handleSubmit st ls in
        App.stageAfter after = App.stage st
        /\ App.errorAfter after = Some App.CANNOT_ERASE
        /\ App.storageAfter after = ls
        /\ App.restartSignalled after = false).
Proof.
  split.
  - intros st ls Hload Hstage Hcode Hacc after. subst after.
    unfold App.handleSubmit. rewrite Hload, Hstage. simpl.
    rewrite Hcode. simpl. unfold removeItem. rewrite Hacc.
    split_and!; try reflexivity.
    + simpl. apply lookup_delete_eq.
    + simpl. unfold getInitialStage, getItem. simpl.
      rewrite lookup_delete_eq. reflexivity.
  - intros st ls Hload Hstage Hcode Hacc after. subst after.
    unfold App.handleSubmit. rewrite Hload, Hstage. simpl.
    rewrite Hcode. simpl. unfold removeItem. rewrite Hacc.
    split_and!; reflexivity.
Qed.

Lemma override_restarts_before_puzzle_witness :
  App.handleSubmit (App.mkState CONQUER " 0413" None false true)
                   (storageOf [(CACHE_KEY, "2")])
  = App.Reloaded (mkStorage (delete CACHE_KEY (items (storageOf [(CACHE_KEY, "2")]))) true)
  /\ App.errorAfter
       (App.handleSubmit (App.mkState START "0413" None false true) blockedStorage)
     = Some App.CANNOT_ERASE.
Proof.
  destruct override_restarts_before_puzzle as (Hok & Hblocked).
  split.
  - apply (Hok (App.mkState CONQUER " 0413" None false true)
               (storageOf [(CACHE_KEY, "2")])); reflexivity.
  - apply (Hblocked (App.mkState START "0413" None false true) blockedStorage);
      reflexivity.
Defined.

(** C3.  At DRAG_PUZZLE or FINAL_CARD a submission does nothing, whatever
    the input: stage, error and the rest of the state, and the storage, are
    as before, and no restart is signalled. *)
Theorem submitAnswer_noop_from_puzzle (st : App.State) (ls : Storage) :
  App.stage st = DRAG_PUZZLE \/ App.stage st = FINAL_CARD ->
  App.handleSubmit st ls = App.Rendered st ls
  /\ App.stageAfter (App.handleSubmit st ls) = App.stage st
  /\ App.errorAfter (App.handleSubmit st ls) = App.error st
  /\ App.storageAfter (App.handleSubmit st ls) = ls
  /\ App.restartSignalled (App.handleSubmit st ls) = false.
Proof.
  intros Hstage. apply atOrPastPuzzle_cases in Hstage.
  assert (App.handleSubmit st ls = App.Rendered st ls) as ->.
  { unfold App.handleSubmit. rewrite Hstage, orb_true_r. reflexivity. }
  split_and!; reflexivity.
Qed.

Lemma submitAnswer_noop_from_puzzle_witness :
  App.handleSubmit (App.mkState DRAG_PUZZLE "0413" (Some "e") false true)
                   (storageOf [(CACHE_KEY, "3")])
  = App.Rendered (App.mkState DRAG_PUZZLE "0413" (Some "e") false true)
                 (storageOf [(CACHE_KEY, "3")]).
Proof.
  apply (submitAnswer_noop_from_puzzle
           (App.mkState DRAG_PUZZLE "0413" (Some "e") false true)
           (storageOf [(CACHE_KEY, "3")])).
  left. reflexivity.
Defined.

(** ** The word puzzle *)

Import DragPuzzle.

Lemma forallb_notNull (seq : list cell) :
  forallb notNull seq = true <-> Null ∉ seq.
Proof.
  induction seq as [| c seq IH]; simpl.
  - split; [intros _ H; inversion H | reflexivity].
  - rewrite andb_true_iff, IH, not_elem_of_cons.
    destruct c; simpl; intuition congruence.
Qed.

Lemma delete_last_added {A} (l : list A) (x : A) :
  delete (length l) (l ++ [x]) = l.
Proof. induction l as [| y l IH]; simpl; [reflexivity | f_equal; exact IH]. Qed.

(** [checkSequence] only touches the error and the timers. *)
Lemma checkSequence_words (seq : list cell) (st : State) :
  draggableWords (checkSequence seq st) = draggableWords st
  /\ droppedWords (checkSequence seq st) = droppedWords st
  /\ selectedWord (checkSequence seq st) = selectedWord st.
Proof.
  unfold checkSequence.
  destruct (forallb notNull seq); [| auto].
  destruct (String.eqb _ _); auto.
Qed.

(** [checkSequence] reads nothing but the error and the timers either. *)
Lemma checkSequence_verdict (seq : list cell) (st st' : State) :
  error st = error st' -> timers st = timers st' ->
  error (checkSequence seq st) = error (checkSequence seq st')
  /\ timers (checkSequence seq st) = timers (checkSequence seq st').
Proof.
  intros He Ht. unfold checkSequence.
  destruct (forallb notNull seq); [| auto].
  destruct (String.eqb _ _); simpl; rewrite Ht; auto.
Qed.

Lemma assign_in_range (a : list cell) (i : nat) (c v : cell) :
  a !! i = Some c -> assign a i v = <[i:=v]> a.
Proof.
  intros H. unfold assign.
  apply lookup_lt_Some in H. destruct (decide (i < length a)); [reflexivity | lia].
Qed.

Lemma at_index_in_range (a : list cell) (i : nat) (c : cell) :
  at_index a i = c -> c <> Undefined -> a !! i = Some c.
Proof.
  unfold at_index. destruct (a !! i); simpl; intros <- H; [reflexivity | contradiction].
Qed.

Lemma vocabulary_NoDup : NoDup VOCABULARY.
Proof. apply (bool_decide_eq_true_1 (NoDup VOCABULARY)). vm_compute. reflexivity. Qed.

Lemma elem_of_vocabulary (w : string) :
  w ∈ VOCABULARY -> w = "CONHECIMENTO" \/ w = "CONQUISTAR" \/ w = "BUSQUE".
Proof. unfold VOCABULARY. rewrite !elem_of_cons, elem_of_nil. tauto. Qed.

Lemma busque_in_vocabulary : "BUSQUE" ∈ VOCABULARY.
Proof. unfold VOCABULARY. rewrite !elem_of_cons. auto. Qed.

(** The full arrangements of the three words, other than the right one, do
    not spell the sentence. *)
Lemma wrong_arrangement_differs (seq : list cell) :
  length seq = 3 ->
  placedWords seq ≡ₚ VOCABULARY ->
  seq <> [Word "BUSQUE"; Word "CONQUISTAR"; Word "CONHECIMENTO"] ->
  (Null ∉ seq) /\ toUpperCase (join " " seq) <> CORRECT_SEQUENCE.
Proof.
  intros Hlen Hperm Hne.
  destruct seq as [| a [| b [| c [| d seq]]]]; try discriminate. clear Hlen.
  assert (length (placedWords [a; b; c]) = 3) as Hfull
    by (rewrite Hperm; reflexivity).
  destruct a as [| | x]; try (destruct b, c; discriminate).
  destruct b as [| | y]; try (destruct c; discriminate).
  destruct c as [| | z]; try discriminate. clear Hfull.
  simpl in Hperm.
  assert (NoDup [x; y; z]) as Hnd by (rewrite Hperm; apply vocabulary_NoDup).
  assert (x ∈ VOCABULARY) as Hx by (rewrite <- Hperm, !elem_of_cons; auto).
  assert (y ∈ VOCABULARY) as Hy by (rewrite <- Hperm, !elem_of_cons; auto).
  assert (z ∈ VOCABULARY) as Hz by (rewrite <- Hperm, !elem_of_cons; auto).
  destruct (elem_of_vocabulary x Hx) as [-> | [-> | ->]];
    destruct (elem_of_vocabulary y Hy) as [-> | [-> | ->]];
    destruct (elem_of_vocabulary z Hz) as [-> | [-> | ->]];
    first
      [ exfalso; apply Hne; reflexivity
      | exfalso; revert Hnd; apply bool_decide_eq_false_1; vm_compute; reflexivity
      | split; [apply (proj1 (forallb_notNull _)); reflexivity | vm_compute; discriminate] ].
Qed.

(** C5.  The completion check does nothing while a slot is still null.
    On a full sequence whose words, joined by single spaces and
    upper-cased, read "BUSQUE CONQUISTAR CONHECIMENTO" (the slots
    BUSQUE, CONQUISTAR, CONHECIMENTO in that order) it clears the error and
    schedules [onSolve] after 1000 ms.  On any other full arrangement of
    the three words it sets the error and schedules, after 2000 ms, a reset
    that puts the pool back to the initial words in their initial order,
    empties the three slots and clears the error. *)
Theorem checkSequence_spec :
  (forall seq st, Null ∈ seq -> checkSequence seq st = st)
  /\ (forall seq st,
        Null ∉ seq ->
        toUpperCase (join " " seq) = CORRECT_SEQUENCE ->
        checkSequence seq st = setTimeout OnSolve 1000 (setError None st))
  /\ (forall seq st,
        Null ∉ seq ->
        toUpperCase (join " " seq) <> CORRECT_SEQUENCE ->
        checkSequence seq st
        = setTimeout ResetWords 2000 (setError (Some INCORRECT_SEQUENCE) st))
  /\ (forall st,
        checkSequence [Word "BUSQUE"; Word "CONQUISTAR"; Word "CONHECIMENTO"] st
        = setTimeout OnSolve 1000 (setError None st))
  /\ (forall seq st INITIAL_WORDS,
        length seq = 3 ->
        placedWords seq ≡ₚ VOCABULARY ->
        seq <> [Word "BUSQUE"; Word "CONQUISTAR"; Word "CONHECIMENTO"] ->
        let failed := checkSequence seq st in
        error failed = Some INCORRECT_SEQUENCE
        /\ draggableWords failed = draggableWords st
        /\ droppedWords failed = droppedWords st
        /\ timers failed = timers st ++ [(ResetWords, 2000)]
        /\ timeout INITIAL_WORDS (length (timers st)) failed
           = mkState INITIAL_WORDS [Null; Null; Null] None (selectedWord st) (timers st)).
Proof.
  split_and!.
  - intros seq st Hnull. unfold checkSequence.
    destruct (forallb notNull seq) eqn:Hall; [| reflexivity].
    apply forallb_notNull in Hall. contradiction.
  - intros seq st Hfull Hjoin. unfold checkSequence.
    apply forallb_notNull in Hfull. rewrite Hfull, Hjoin. reflexivity.
  - intros seq st Hfull Hjoin. unfold checkSequence.
    apply forallb_notNull in Hfull. rewrite Hfull.
    apply String.eqb_neq in Hjoin. rewrite Hjoin. reflexivity.
  - intros st. reflexivity.
  - intros seq st INITIAL_WORDS Hlen Hperm Hne failed.
    destruct (wrong_arrangement_differs seq Hlen Hperm Hne) as [Hfull Hjoin].
    assert (failed = setTimeout ResetWords 2000 (setError (Some INCORRECT_SEQUENCE) st))
      as ->.
    { subst failed. unfold checkSequence.
      apply forallb_notNull in Hfull. rewrite Hfull.
      apply String.eqb_neq in Hjoin. rewrite Hjoin. reflexivity. }
    split_and!; try reflexivity.
    unfold timeout. simpl.
    rewrite list_lookup_middle by reflexivity. simpl.
    rewrite delete_last_added. reflexivity.
Qed.

Lemma checkSequence_spec_witness :
  checkSequence [Word "BUSQUE"; Null; Word "CONHECIMENTO"] (initialState VOCABULARY)
  = initialState VOCABULARY
  /\ checkSequence [Word "busque"; Word "Conquistar"; Word "CONHECIMENTO"]
       (initialState VOCABULARY)
     = setTimeout OnSolve 1000 (setError None (initialState VOCABULARY))
  /\ checkSequence [Word "BUSQUE"; Word "BUSQUE"; Word "BUSQUE"] (initialState VOCABULARY)
     = setTimeout ResetWords 2000
         (setError (Some INCORRECT_SEQUENCE) (initialState VOCABULARY))
  /\ timeout VOCABULARY 0
       (checkSequence [Word "CONQUISTAR"; Word "BUSQUE"; Word "CONHECIMENTO"]
          (mkState [] [Word "CONQUISTAR"; Word "BUSQUE"; Word "CONHECIMENTO"] None None []))
     = initialState VOCABULARY.
Proof.
  destruct checkSequence_spec as (Hpartial & Hsolve & Hfail & _ & Hreset).
  split_and!.
  - apply Hpartial. rewrite !elem_of_cons. auto.
  - apply Hsolve; [apply (proj1 (forallb_notNull _)); reflexivity | reflexivity].
  - apply Hfail; [apply (proj1 (forallb_notNull _)); reflexivity | vm_compute; discriminate].
  - apply (Hreset [Word "CONQUISTAR"; Word "BUSQUE"; Word "CONHECIMENTO"]
             (mkState [] [Word "CONQUISTAR"; Word "BUSQUE"; Word "CONHECIMENTO"] None None [])
             VOCABULARY).
    + reflexivity.
    + apply (Permutation_app_comm ["CONQUISTAR"; "BUSQUE"] ["CONHECIMENTO"]).
    + discriminate.
Defined.

(** C8.  Clicking the selected word again deselects it and moves nothing.
    Clicking an occupied slot while a word is selected does not place that
    word: the slot's word goes back to the end of the pool, the slot becomes
    empty and the selection is cleared.  A drop on an occupied slot changes
    nothing. *)
Theorem click_mode_toggle_and_vacate :
  (forall st w,
      selectedWord st = Some w ->
      handleWordClick w st
      = mkState (draggableWords st) (droppedWords st) (error st) None (timers st))
  /\ (forall st i selected w,
        selectedWord st = Some selected ->
        droppedWords st !! i = Some (Word w) ->
        w <> "" ->
        handleSlotClick i st
        = mkState (draggableWords st ++ [w]) (<[i:=Null]> (droppedWords st))
                  (error st) None (timers st))
  /\ (forall st dragged i w,
        droppedWords st !! i = Some (Word w) ->
        handleDrop dragged i st = st).
Proof.
  split_and!.
  - intros st w Hsel. unfold handleWordClick, setSelectedWord.
    rewrite bool_decide_eq_true_2 by exact Hsel. reflexivity.
  - intros st i selected w Hsel Hslot Hw. unfold handleSlotClick, at_index.
    rewrite Hslot. simpl.
    apply String.eqb_neq in Hw. rewrite Hw. simpl.
    rewrite andb_false_r.
    rewrite (assign_in_range _ _ _ _ Hslot). reflexivity.
  - intros st dragged i w Hslot. unfold handleDrop, at_index.
    rewrite Hslot. simpl. rewrite orb_true_r. reflexivity.
Qed.

Lemma click_mode_toggle_and_vacate_witness :
  handleWordClick "BUSQUE"
    (mkState ["BUSQUE"] [Word "CONQUISTAR"; Null; Word "CONHECIMENTO"] None (Some "BUSQUE") [])
  = mkState ["BUSQUE"] [Word "CONQUISTAR"; Null; Word "CONHECIMENTO"] None None []
  /\ handleSlotClick 2
       (mkState ["BUSQUE"] [Word "CONQUISTAR"; Null; Word "CONHECIMENTO"] None (Some "BUSQUE") [])
     = mkState ["BUSQUE"; "CONHECIMENTO"] [Word "CONQUISTAR"; Null; Null] None None []
  /\ handleDrop "BUSQUE" 0
       (mkState ["BUSQUE"] [Word "CONQUISTAR"; Null; Word "CONHECIMENTO"] None None [])
     = mkState ["BUSQUE"] [Word "CONQUISTAR"; Null; Word "CONHECIMENTO"] None None [].
Proof.
  destruct click_mode_toggle_and_vacate as (Htoggle & Hvacate & Hdrop).
  split_and!.
  - exact (Htoggle
             (mkState ["BUSQUE"] [Word "CONQUISTAR"; Null; Word "CONHECIMENTO"]
                      None (Some "BUSQUE") [])
             "BUSQUE" eq_refl).
  - assert ("CONHECIMENTO" <> "") as Hword by discriminate.
    exact (Hvacate
             (mkState ["BUSQUE"] [Word "CONQUISTAR"; Null; Word "CONHECIMENTO"]
                      None (Some "BUSQUE") [])
             2 "BUSQUE" "CONHECIMENTO" eq_refl eq_refl Hword).
  - exact (Hdrop
             (mkState ["BUSQUE"] [Word "CONQUISTAR"; Null; Word "CONHECIMENTO"]
                      None None [])
             "BUSQUE" 0 "CONQUISTAR" eq_refl).
Defined.

(** C6, as stated, fails on a state in which the word is already the
    selected one: the click on it deselects it, the click on the slot then
    finds no selection and places nothing, while the drop places it. *)
Lemma click_on_selected_word_counterexample :
  ~ (forall st w i,
        w ∈ draggableWords st ->
        at_index (droppedWords st) i = Null ->
        draggableWords (handleDrop w i st)
          = draggableWords (handleSlotClick i (handleWordClick w st))
        /\ droppedWords (handleDrop w i st)
           = droppedWords (handleSlotClick i (handleWordClick w st))).
Proof.
  intros Hclaim.
  destruct (Hclaim (handleWordClick "BUSQUE" (initialState VOCABULARY)) "BUSQUE" 0)
    as [Hpool _].
  - exact busque_in_vocabulary.
  - reflexivity.
  - vm_compute in Hpool. discriminate.
Qed.

(** C6, amended.  On a state in which the word w of the pool is not the
    selected one (w being a word, hence not the empty text) and slot i is
    empty, dropping w on slot i and clicking w then slot i leave the same
    pool and the same slots: w is filtered out of the pool and written to
    slot i.  Both run the same completion check, with the same verdict. *)
Theorem drag_and_click_place_alike (st : State) (w : string) (i : nat) :
  w ∈ draggableWords st ->
  at_index (droppedWords st) i = Null ->
  w <> "" ->
  selectedWord st <> Some w ->
  let dragged := handleDrop w i st in
  let clicked := handleSlotClick i (handleWordClick w st) in
  draggableWords dragged = draggableWords clicked
  /\ droppedWords dragged = droppedWords clicked
  /\ error dragged = error clicked
  /\ timers dragged = timers clicked
  /\ draggableWords dragged = filter (fun x => x ≠ w) (draggableWords st)
  /\ droppedWords dragged = <[i:=Word w]> (droppedWords st).
Proof.
  intros Hpool Hslot Hw Hsel dragged clicked.
  assert (droppedWords st !! i = Some Null) as Hlookup
    by (apply at_index_in_range; [exact Hslot | discriminate]).
  assert (dragged
          = checkSequence (<[i:=Word w]> (droppedWords st))
              (mkState (filter (fun x => x ≠ w) (draggableWords st))
                       (<[i:=Word w]> (droppedWords st))
                       (error st) (selectedWord st) (timers st))) as Hdragged.
  { subst dragged. unfold handleDrop.
    rewrite bool_decide_eq_true_2 by exact Hpool. rewrite Hslot. simpl.
    rewrite (assign_in_range _ _ _ _ Hlookup). reflexivity. }
  assert (clicked
          = checkSequence (<[i:=Word w]> (droppedWords st))
              (mkState (filter (fun x => x ≠ w) (draggableWords st))
                       (<[i:=Word w]> (droppedWords st))
                       (error st) None (timers st))) as Hclicked.
  { subst clicked. unfold handleSlotClick, handleWordClick, setSelectedWord.
    rewrite bool_decide_eq_false_2 by exact Hsel. simpl.
    rewrite Hslot. simpl.
    apply String.eqb_neq in Hw. rewrite Hw. simpl.
    rewrite (assign_in_range _ _ _ _ Hlookup). reflexivity. }
  rewrite Hdragged, Hclicked.
  pose proof (checkSequence_words (<[i:=Word w]> (droppedWords st))) as Hwords.
  destruct (Hwords (mkState (filter (fun x => x ≠ w) (draggableWords st))
                            (<[i:=Word w]> (droppedWords st))
                            (error st) (selectedWord st) (timers st)))
    as (-> & -> & _).
  destruct (Hwords (mkState (filter (fun x => x ≠ w) (draggableWords st))
                            (<[i:=Word w]> (droppedWords st))
                            (error st) None (timers st)))
    as (-> & -> & _).
  simpl. split_and!; try reflexivity;
    apply checkSequence_verdict; reflexivity.
Qed.

Lemma drag_and_click_place_alike_witness :
  draggableWords (handleDrop "BUSQUE" 1 (initialState VOCABULARY))
  = draggableWords
      (handleSlotClick 1 (handleWordClick "BUSQUE" (initialState VOCABULARY)))
  /\ droppedWords (handleDrop "BUSQUE" 1 (initialState VOCABULARY))
     = droppedWords
         (handleSlotClick 1 (handleWordClick "BUSQUE" (initialState VOCABULARY))).
Proof.
  destruct (drag_and_click_place_alike (initialState VOCABULARY) "BUSQUE" 1)
    as (Hpool & Hslots & _).
  - exact busque_in_vocabulary.
  - reflexivity.
  - discriminate.
  - discriminate.
  - split; [exact Hpool | exact Hslots].
Defined.

(** ** The words are neither lost nor duplicated, as long as no word is
       dropped while it is the selected one *)

Lemma filter_out_present (w : string) (l : list string) :
  NoDup l -> w ∈ l -> l ≡ₚ w :: filter (fun x => x ≠ w) l.
Proof.
  induction 1 as [| a l Hnotin Hnd IH]; intros Hin.
  - inversion Hin.
  - destruct (decide (a = w)) as [-> | Hne].
    + rewrite filter_cons_False by (intros H; apply H; reflexivity).
      assert (filter (fun x => x ≠ w) l = l) as ->; [| reflexivity].
      clear IH Hnd Hin. induction l as [| b l IHl]; [reflexivity |].
      apply not_elem_of_cons in Hnotin as [Hb Hl].
      rewrite filter_cons_True by (intros ->; apply Hb; reflexivity).
      f_equal. apply IHl. exact Hl.
    + rewrite filter_cons_True by exact Hne.
      apply elem_of_cons in Hin as [-> | Hin]; [contradiction |].
      rewrite (IH Hin) at 1. apply Permutation_swap.
Qed.

Lemma placedWords_fill (a : list cell) (i : nat) (w : string) :
  a !! i = Some Null -> placedWords (<[i:=Word w]> a) ≡ₚ w :: placedWords a.
Proof.
  revert i. induction a as [| c a IH]; intros [| i] Hi; try discriminate.
  - injection Hi as ->. reflexivity.
  - simpl in Hi. specialize (IH i Hi). simpl in *.
    destruct c as [| | x]; simpl; [exact IH | exact IH |].
    rewrite IH. apply Permutation_swap.
Qed.

Lemma placedWords_vacate (a : list cell) (i : nat) (w : string) :
  a !! i = Some (Word w) -> placedWords a ≡ₚ w :: placedWords (<[i:=Null]> a).
Proof.
  revert i. induction a as [| c a IH]; intros [| i] Hi; try discriminate.
  - injection Hi as ->. reflexivity.
  - simpl in Hi. specialize (IH i Hi). simpl in *.
    destruct c as [| | x]; simpl; [exact IH | exact IH |].
    rewrite IH. apply Permutation_swap.
Qed.

Lemma placedWords_elem (a : list cell) (i : nat) (w : string) :
  a !! i = Some (Word w) -> w ∈ placedWords a.
Proof.
  intros Hi. apply list_elem_of_omap. exists (Word w).
  split; [eapply list_elem_of_lookup_2; exact Hi | reflexivity].
Qed.

Lemma vocabulary_nonempty (w : string) : w ∈ VOCABULARY -> w <> "".
Proof. intros H. destruct (elem_of_vocabulary w H) as [-> | [-> | ->]]; discriminate. Qed.

Lemma wellFormed_pool_word (st : State) (w : string) :
  wellFormed st -> w ∈ draggableWords st -> w ∈ VOCABULARY.
Proof.
  intros (Hperm & _) Hin. rewrite <- Hperm. apply elem_of_app. left. exact Hin.
Qed.

Lemma wellFormed_slot_word (st : State) (i : nat) (w : string) :
  wellFormed st -> droppedWords st !! i = Some (Word w) -> w ∈ VOCABULARY.
Proof.
  intros (Hperm & _) Hi. rewrite <- Hperm. apply elem_of_app. right.
  eapply placedWords_elem. exact Hi.
Qed.

Lemma wellFormed_pool_NoDup (st : State) :
  wellFormed st -> NoDup (draggableWords st).
Proof.
  intros (Hperm & _).
  assert (NoDup (draggableWords st ++ placedWords (droppedWords st))) as Hnd
    by (rewrite Hperm; apply vocabulary_NoDup).
  apply NoDup_app in Hnd as (Hnd & _). exact Hnd.
Qed.

(** Well-formedness only looks at the pool, the slots and the selection. *)
Lemma wellFormed_same_words (st st' : State) :
  draggableWords st' = draggableWords st ->
  droppedWords st' = droppedWords st ->
  selectedWord st' = selectedWord st ->
  wellFormed st -> wellFormed st'.
Proof. unfold wellFormed. intros -> -> ->. auto. Qed.

Lemma checkSequence_wellFormed (seq : list cell) (st : State) :
  wellFormed st -> wellFormed (checkSequence seq st).
Proof.
  destruct (checkSequence_words seq st) as (Hp & Hd & Hs).
  apply wellFormed_same_words; assumption.
Qed.

(** Moving a word of the pool into an empty slot. *)
Lemma place_wellFormed (st : State) (w : string) (i : nat) (sel : option string) e t :
  wellFormed st ->
  w ∈ draggableWords st ->
  droppedWords st !! i = Some Null ->
  (forall x, sel = Some x -> x ∈ draggableWords st /\ x <> w) ->
  wellFormed (mkState (filter (fun x => x ≠ w) (draggableWords st))
                      (<[i:=Word w]> (droppedWords st)) e sel t).
Proof.
  intros Hwf Hin Hslot Hsel.
  pose proof (wellFormed_pool_NoDup st Hwf) as Hnd.
  destruct Hwf as (Hperm & Hlen & Hdef & _).
  unfold wellFormed. simpl. split_and!.
  - rewrite (placedWords_fill _ _ _ Hslot), <- Hperm.
    rewrite (filter_out_present w (draggableWords st) Hnd Hin) at 2.
    symmetry. apply Permutation_middle.
  - rewrite length_insert. exact Hlen.
  - apply Forall_insert; [exact Hdef | discriminate].
  - intros x Hx. destruct (Hsel x Hx) as [Hxin Hxne].
    apply list_elem_of_filter. auto.
Qed.

(** Moving the word of a slot back to the pool. *)
Lemma vacate_wellFormed (st : State) (w : string) (i : nat) e t :
  wellFormed st ->
  droppedWords st !! i = Some (Word w) ->
  wellFormed (mkState (draggableWords st ++ [w])
                      (<[i:=Null]> (droppedWords st)) e None t).
Proof.
  intros (Hperm & Hlen & Hdef & _) Hslot.
  unfold wellFormed. simpl. split_and!.
  - rewrite <- Hperm, (placedWords_vacate _ _ _ Hslot).
    rewrite <- app_assoc. reflexivity.
  - rewrite length_insert. exact Hlen.
  - apply Forall_insert; [exact Hdef | discriminate].
  - intros x Hx. discriminate.
Qed.

Section Invariant.

Variable INITIAL_WORDS : list string.
Hypothesis initial_words : INITIAL_WORDS ≡ₚ VOCABULARY.

Lemma initialState_wellFormed : wellFormed (initialState INITIAL_WORDS).
Proof.
  unfold wellFormed, initialState. simpl. split_and!.
  - rewrite app_nil_r. exact initial_words.
  - reflexivity.
  - repeat constructor; discriminate.
  - intros w Hw. discriminate.
Qed.

Lemma handleDrop_wellFormed (st : State) (w : string) (i : nat) :
  wellFormed st -> selectedWord st <> Some w -> wellFormed (handleDrop w i st).
Proof.
  intros Hwf Hsel. unfold handleDrop.
  destruct (bool_decide (w ∈ draggableWords st)) eqn:Hin; simpl; [| exact Hwf].
  apply bool_decide_eq_true_1 in Hin.
  destruct (at_index (droppedWords st) i) eqn:Hslot; simpl; try exact Hwf.
  assert (droppedWords st !! i = Some Null) as Hlookup
    by (apply at_index_in_range; [exact Hslot | discriminate]).
  rewrite (assign_in_range _ _ _ _ Hlookup).
  apply checkSequence_wellFormed, place_wellFormed; try assumption.
  intros x Hx. split; [apply Hwf; exact Hx | congruence].
Qed.

Lemma handleWordClick_wellFormed (st : State) (w : string) :
  wellFormed st -> w ∈ draggableWords st -> wellFormed (handleWordClick w st).
Proof.
  intros (Hperm & Hlen & Hdef & Hsel) Hin.
  unfold handleWordClick, wellFormed. simpl. split_and!; try assumption.
  intros x. destruct (bool_decide (selectedWord st = Some w)); [discriminate |].
  intros [= <-]. exact Hin.
Qed.

Lemma handleSlotClick_wellFormed (st : State) (i : nat) :
  wellFormed st -> i < 3 -> wellFormed (handleSlotClick i st).
Proof.
  intros Hwf Hi.
  assert (exists c, droppedWords st !! i = Some c) as [c Hslot].
  { apply lookup_lt_is_Some. destruct Hwf as (_ & -> & _). exact Hi. }
  assert (c <> Undefined) as Hc.
  { destruct Hwf as (_ & _ & Hdef & _).
    rewrite Forall_lookup in Hdef. exact (Hdef i c Hslot). }
  unfold handleSlotClick, at_index. rewrite Hslot. simpl.
  rewrite (assign_in_range _ _ _ (Word (default "" (selectedWord st))) Hslot).
  rewrite (assign_in_range _ _ _ Null Hslot).
  destruct c as [| | w]; [| contradiction |].
  - (* an empty slot *)
    simpl. rewrite andb_true_r.
    destruct (selectedWord st) as [sel |] eqn:Hsel; [| exact Hwf].
    assert (sel ∈ draggableWords st) as Hin by (apply Hwf; exact Hsel).
    pose proof (vocabulary_nonempty sel (wellFormed_pool_word st sel Hwf Hin)) as Hne.
    simpl. apply String.eqb_neq in Hne. rewrite Hne. simpl.
    apply checkSequence_wellFormed, place_wellFormed; try assumption.
    intros x Hx. discriminate.
  - (* an occupied slot *)
    pose proof (vocabulary_nonempty w (wellFormed_slot_word st i w Hwf Hslot)) as Hne.
    simpl. apply String.eqb_neq in Hne. rewrite Hne. simpl.
    rewrite andb_false_r.
    apply vacate_wellFormed; assumption.
Qed.

Lemma timeout_wellFormed (st : State) (k : nat) :
  wellFormed st -> wellFormed (timeout INITIAL_WORDS k st).
Proof.
  intros Hwf. unfold timeout.
  destruct (timers st !! k) as [[[|] ms] |]; simpl; [| | exact Hwf].
  - revert Hwf. apply wellFormed_same_words; reflexivity.
  - unfold wellFormed. simpl. split_and!.
    + rewrite app_nil_r. exact initial_words.
    + reflexivity.
    + repeat constructor; discriminate.
    + intros w Hw. rewrite initial_words.
      eapply wellFormed_pool_word; [exact Hwf |]. apply Hwf. exact Hw.
Qed.

Lemma handle_wellFormed (st : State) (e : Event) :
  wellFormed st -> admissible st e -> wellFormed (handle INITIAL_WORDS e st).
Proof.
  intros Hwf He. destruct e as [w | w i | w | i | k]; simpl in *.
  - destruct Hwf as (Hperm & Hlen & Hdef & _).
    unfold wellFormed. simpl. split_and!; try assumption.
    intros x Hx. discriminate.
  - apply handleDrop_wellFormed; assumption.
  - apply handleWordClick_wellFormed; assumption.
  - apply handleSlotClick_wellFormed; assumption.
  - apply timeout_wellFormed; assumption.
Qed.

(** Along any run in which no word is dropped while it is the selected
    one, the pool and the slots hold three words in all, and these are
    the three words of the vocabulary. *)
Lemma run_keeps_words (es : list Event) (st : State) :
  wellFormed st ->
  admissibleTrace INITIAL_WORDS st es ->
  let st' := run INITIAL_WORDS es st in
  wellFormed st'
  /\ length (draggableWords st') + length (placedWords (droppedWords st')) = 3
  /\ draggableWords st' ++ placedWords (droppedWords st') ≡ₚ VOCABULARY.
Proof.
  revert st. induction es as [| e es IH]; intros st Hwf Htrace; simpl in *.
  - split_and!; [exact Hwf | | apply Hwf].
    destruct Hwf as (Hperm & _).
    rewrite <- length_app, Hperm. reflexivity.
  - destruct Htrace as [He Hrest].
    apply IH; [apply handle_wellFormed; assumption | exact Hrest].
Qed.

End Invariant.

(** C4.  The code does not keep the claimed invariant: [handleDrop] leaves
    the selection as it is, and [handleSlotClick] places the selected word
    without checking that it is still in the pool.  After a click on
    BUSQUE, a drop of the text BUSQUE on the first slot and a click on the
    second slot, BUSQUE is in two slots: pool and slots hold four words. *)
Theorem stale_selection_duplicates_word :
  let st := run VOCABULARY [WordClick "BUSQUE"; Drop "BUSQUE" 0; SlotClick 1]
                (initialState VOCABULARY) in
  draggableWords st = ["CONHECIMENTO"; "CONQUISTAR"]
  /\ droppedWords st = [Word "BUSQUE"; Word "BUSQUE"; Null]
  /\ length (draggableWords st) + length (placedWords (droppedWords st)) = 4
  /\ ~ (draggableWords st ++ placedWords (droppedWords st) ≡ₚ VOCABULARY).
Proof.
  split_and!; try reflexivity.
  intros Hperm. apply Permutation_length in Hperm. discriminate.
Qed.

(** * Further properties *)

(** ** Formatting the input *)

Lemma trimStart_blank (p : string) : allWhiteSpace p = true -> trimStart p = "".
Proof.
  induction p as [| c p IH]; simpl; [reflexivity |].
  intros H. apply andb_true_iff in H as [Hc Hp]. rewrite Hc. auto.
Qed.

Lemma trimEnd_blank (p : string) : allWhiteSpace p = true -> trimEnd p = "".
Proof.
  induction p as [| c p IH]; simpl; [reflexivity |].
  intros H. apply andb_true_iff in H as [Hc Hp]. rewrite (IH Hp), Hc. reflexivity.
Qed.

Lemma trimStart_padding (p s : string) :
  allWhiteSpace p = true -> trimStart (p ++ s)%string = trimStart s.
Proof.
  induction p as [| c p IH]; simpl; [reflexivity |].
  intros H. apply andb_true_iff in H as [Hc Hp]. rewrite Hc. auto.
Qed.

Lemma trimEnd_padding (s p : string) :
  allWhiteSpace p = true -> trimEnd (s ++ p)%string = trimEnd s.
Proof.
  intros Hp. induction s as [| c s IH]; simpl.
  - apply trimEnd_blank. exact Hp.
  - rewrite IH. reflexivity.
Qed.

Lemma trim_padding (p1 s p2 : string) :
  allWhiteSpace p1 = true -> allWhiteSpace p2 = true ->
  trim (p1 ++ s ++ p2)%string = trim s.
Proof.
  intros H1 H2. unfold trim. rewrite (trimStart_padding _ _ H1).
  induction s as [| c s IH]; simpl.
  - change ("" ++ p2)%string with p2.
    rewrite (trimStart_blank _ H2). reflexivity.
  - destruct (isWhiteSpace c); [exact IH |].
    change (String c (s ++ p2)%string) with (String c s ++ p2)%string.
    apply trimEnd_padding. exact H2.
Qed.

Lemma upperChar_whiteSpace (c : ascii) : isWhiteSpace (upperChar c) = isWhiteSpace c.
Proof.
  unfold upperChar.
  destruct (N.leb 97 (N_of_ascii c) && N.leb (N_of_ascii c) 122) eqn:Hletter;
    [| reflexivity].
  apply andb_true_iff in Hletter as [Hlo Hhi].
  apply N.leb_le in Hlo, Hhi.
  unfold isWhiteSpace. rewrite N_ascii_embedding by lia.
  assert (forall n, (65 <= n)%N -> (n <> 32)%N ->
                    (N.leb 9 n && N.leb n 13 || N.eqb n 32) = false) as Hno.
  { intros n Hn Hn'. apply orb_false_iff. split.
    - apply andb_false_iff. right. apply N.leb_gt. lia.
    - apply N.eqb_neq. exact Hn'. }
  rewrite !Hno by lia. reflexivity.
Qed.

Lemma toUpperCase_trimStart (s : string) :
  toUpperCase (trimStart s) = trimStart (toUpperCase s).
Proof.
  induction s as [| c s IH]; simpl; [reflexivity |].
  rewrite upperChar_whiteSpace. destruct (isWhiteSpace c); [exact IH | reflexivity].
Qed.

Lemma toUpperCase_trimEnd (s : string) :
  toUpperCase (trimEnd s) = trimEnd (toUpperCase s).
Proof.
  induction s as [| c s IH]; simpl; [reflexivity |].
  rewrite <- IH, upperChar_whiteSpace.
  destruct (trimEnd s); simpl; [destruct (isWhiteSpace c) |]; reflexivity.
Qed.

(** Upper-casing and trimming may be done in either order. *)
Lemma formatInput_upper_first (s : string) :
  App.formatInput s = trim (toUpperCase s).
Proof.
  unfold App.formatInput, trim.
  rewrite toUpperCase_trimEnd, toUpperCase_trimStart. reflexivity.
Qed.

(** What a submission shows depends on the input through its formatted
    text only. *)
Lemma handleSubmit_by_formatted_input (st st' : App.State) (ls : Storage) :
  App.stage st' = App.stage st ->
  App.isLoading st' = App.isLoading st ->
  App.error st' = App.error st ->
  App.formatInput (App.inputValue st') = App.formatInput (App.inputValue st) ->
  App.stageAfter (App.handleSubmit st' ls) = App.stageAfter (App.handleSubmit st ls)
  /\ App.errorAfter (App.handleSubmit st' ls) = App.errorAfter (App.handleSubmit st ls)
  /\ App.storageAfter (App.handleSubmit st' ls) = App.storageAfter (App.handleSubmit st ls)
  /\ App.restartSignalled (App.handleSubmit st' ls)
     = App.restartSignalled (App.handleSubmit st ls).
Proof.
  intros Hstage Hload Herr Hfmt. unfold App.handleSubmit.
  rewrite Hstage, Hload, Hfmt.
  destruct (App.isLoading st || App.atOrPastPuzzle (App.stage st)); simpl.
  - rewrite Hstage, Herr. auto.
  - destruct (String.eqb _ App.OVERRIDE_CODE).
    + destruct (removeItem ls CACHE_KEY); simpl; rewrite ?Hstage; auto.
    + destruct (String.eqb _ _); simpl; rewrite ?Hstage; auto.
Qed.

(** X1.  White space around the input and the case of its letters do not
    matter to a submission: an input that differs from another one only by
    leading and trailing white space and by letter case leads to the same
    stage, the same error, the same storage and the same restart signal. *)
Theorem submit_ignores_padding_and_case
        (s : GameStage) (e : option string) (loading interacted : bool)
        (ls : Storage) (raw other pad1 pad2 : string) :
  allWhiteSpace pad1 = true ->
  allWhiteSpace pad2 = true ->
  toUpperCase other = toUpperCase raw ->
  let plain := App.handleSubmit (App.mkState s raw e loading interacted) ls in
  let padded :=
    App.handleSubmit
      (App.mkState s (pad1 ++ other ++ pad2)%string e loading interacted) ls in
  App.formatInput (pad1 ++ other ++ pad2)%string = App.formatInput raw
  /\ App.stageAfter padded = App.stageAfter plain
  /\ App.errorAfter padded = App.errorAfter plain
  /\ App.storageAfter padded = App.storageAfter plain
  /\ App.restartSignalled padded = App.restartSignalled plain.
Proof.
  intros H1 H2 Hcase plain padded.
  assert (App.formatInput (pad1 ++ other ++ pad2)%string = App.formatInput raw) as Hfmt.
  { unfold App.formatInput at 1. rewrite (trim_padding _ _ _ H1 H2).
    fold (App.formatInput other).
    rewrite !formatInput_upper_first, Hcase. reflexivity. }
  split; [exact Hfmt |].
  apply handleSubmit_by_formatted_input; try reflexivity. exact Hfmt.
Qed.

Lemma submit_ignores_padding_and_case_witness :
  App.stageAfter
    (App.handleSubmit (App.mkState CONQUER "  BusQue  " None false true) (storageOf []))
  = App.stageAfter
      (App.handleSubmit (App.mkState CONQUER "busque" None false true) (storageOf [])).
Proof.
  apply (submit_ignores_padding_and_case CONQUER None false true (storageOf [])
           "busque" "BusQue" "  " "  "); reflexivity.
Defined.

Lemma formatInput_blank (raw : string) :
  allWhiteSpace raw = true -> App.formatInput raw = "".
Proof.
  intros H. unfold App.formatInput, trim.
  rewrite (trimStart_blank _ H). reflexivity.
Qed.

(** X2.  An empty or blank input never advances: the stage and the storage
    stay, no restart is signalled, and when the form is live (content
    shown, stage before DRAG_PUZZLE) the wrong-answer message is set.  The
    stages whose answer is the empty text are the ones the guard shuts. *)
Theorem blank_input_never_advances (st : App.State) (ls : Storage) :
  allWhiteSpace (App.inputValue st) = true ->
  let after := App.handleSubmit st ls in
  App.stageAfter after = App.stage st
  /\ App.storageAfter after = ls
  /\ App.restartSignalled after = false
  /\ (App.isLoading st = false ->
      App.atOrPastPuzzle (App.stage st) = false ->
      App.errorAfter after = Some App.WRONG_ANSWER).
Proof.
  intros Hblank after. subst after. unfold App.handleSubmit.
  rewrite (formatInput_blank _ Hblank).
  destruct (App.isLoading st) eqn:Hload; simpl.
  - split_and!; try reflexivity. intros H; discriminate.
  - destruct (App.atOrPastPuzzle (App.stage st)) eqn:Hpast; simpl.
    + split_and!; try reflexivity. intros _ H; discriminate.
    + destruct (App.stage st); try discriminate; simpl; split_and!; reflexivity.
Qed.

Lemma blank_input_never_advances_witness :
  App.stageAfter
    (App.handleSubmit (App.mkState START "   " None false true) (storageOf []))
  = START.
Proof.
  apply (blank_input_never_advances
           (App.mkState START "   " None false true) (storageOf [])).
  reflexivity.
Defined.

(** X3.  A submission moves the stage by at most one step, never onto
    FINAL_CARD, or restarts: without a restart the stage index stays or
    grows by one and FINAL_CARD is not entered; with a restart the stored
    stage is gone and the page starts at START. *)
Theorem submit_moves_one_step_at_most (st : App.State) (ls : Storage) :
  let after := App.handleSubmit st ls in
  (App.restartSignalled after = false ->
   (stageIndex (App.stageAfter after) = stageIndex (App.stage st)
    \/ stageIndex (App.stageAfter after) = (stageIndex (App.stage st) + 1)%Z)
   /\ (App.stage st <> FINAL_CARD -> App.stageAfter after <> FINAL_CARD)
   /\ App.storageAfter after = ls)
  /\ (App.restartSignalled after = true ->
      items (App.storageAfter after) !! CACHE_KEY = None
      /\ App.stageAfter after = START).
Proof.
  intros after. subst after. unfold App.handleSubmit.
  destruct (App.isLoading st || App.atOrPastPuzzle (App.stage st)) eqn:Hguard; simpl.
  { split; [intros _; split_and!; auto | intros H; discriminate]. }
  apply orb_false_iff in Hguard as [_ Hstage].
  destruct (String.eqb _ App.OVERRIDE_CODE).
  - unfold removeItem. destruct (accessible ls) eqn:Hacc; simpl.
    + split; [intros H; discriminate | intros _].
      unfold getInitialStage, getItem. simpl.
      rewrite lookup_delete_eq. split; reflexivity.
    + split; [intros _; split_and!; auto | intros H; discriminate].
  - destruct (String.eqb _ _); simpl;
      (split; [intros _ | intros H; discriminate]).
    + destruct (App.stage st); try discriminate; simpl;
        split_and!; auto; discriminate.
    + split_and!; auto.
Qed.

Lemma submit_moves_one_step_at_most_witness :
  stageIndex
    (App.stageAfter
       (App.handleSubmit (App.mkState KNOWLEDGE "conquistar" None false true)
                         (storageOf [])))
  = stageIndex KNOWLEDGE
  \/ stageIndex
       (App.stageAfter
          (App.handleSubmit (App.mkState KNOWLEDGE "conquistar" None false true)
                            (storageOf [])))
     = (stageIndex KNOWLEDGE + 1)%Z.
Proof.
  apply (submit_moves_one_step_at_most
           (App.mkState KNOWLEDGE "conquistar" None false true) (storageOf [])).
  reflexivity.
Defined.

(** ** Writing and reading back the preferences *)

Lemma cache_keys_differ : CACHE_KEY <> MUTE_CACHE_KEY.
Proof. discriminate. Qed.

Lemma getItem_setItem_same (ls ls' : Storage) (key value : string) :
  setItem ls key value = Normal ls' -> getItem ls' key = Normal (Some value).
Proof.
  unfold setItem, getItem. destruct (accessible ls); [| discriminate].
  intros [= <-]. simpl. rewrite lookup_insert_eq. reflexivity.
Qed.

Lemma getItem_setItem_other (ls ls' : Storage) (key other value : string) :
  key <> other -> setItem ls key value = Normal ls' -> getItem ls' other = getItem ls other.
Proof.
  intros Hne. unfold setItem, getItem. destruct (accessible ls) eqn:Hacc; [| discriminate].
  intros [= <-]. simpl. rewrite lookup_insert_ne by exact Hne. reflexivity.
Qed.

Lemma getItem_persistStage_other (s : GameStage) (ls : Storage) (key : string) :
  key <> CACHE_KEY -> getItem (persistStage s ls) key = getItem ls key.
Proof.
  intros Hne. unfold persistStage.
  destruct (setItem ls CACHE_KEY (stageText s)) as [ls' |] eqn:Hset; [| reflexivity].
  eapply getItem_setItem_other; [| exact Hset]. congruence.
Qed.

Lemma getItem_persistMute_other (rt : JSONRuntime) (m : JSONValue) (ls : Storage)
      (key : string) :
  key <> MUTE_CACHE_KEY -> getItem (persistMute rt m ls) key = getItem ls key.
Proof.
  intros Hne. unfold persistMute.
  destruct (setItem ls MUTE_CACHE_KEY (JSON_stringify rt m)) as [ls' |] eqn:Hset;
    [| reflexivity].
  eapply getItem_setItem_other; [| exact Hset]. congruence.
Qed.

Lemma getInitialStage_of_stageText (s : GameStage) (ls : Storage) :
  getItem ls CACHE_KEY = Normal (Some (stageText s)) -> getInitialStage ls = s.
Proof. unfold getInitialStage. intros ->. destruct s; reflexivity. Qed.

(** X4.  The stage written by the effect is the stage read at the next
    load, and the write leaves every other key alone.  When the storage
    cannot be used the write is dropped and the next load starts at
    START. *)
Theorem persistStage_round_trip (s : GameStage) (ls : Storage) :
  (accessible ls = true ->
   getInitialStage (persistStage s ls) = s
   /\ forall key, key <> CACHE_KEY ->
                  items (persistStage s ls) !! key = items ls !! key)
  /\ (accessible ls = false ->
      persistStage s ls = ls /\ getInitialStage (persistStage s ls) = START).
Proof.
  unfold persistStage, setItem. split; intros Hacc; rewrite Hacc.
  - split.
    + apply getInitialStage_of_stageText. unfold getItem. simpl.
      rewrite lookup_insert_eq. reflexivity.
    + intros key Hne. simpl. apply lookup_insert_ne. congruence.
  - split; [reflexivity |]. unfold getInitialStage, getItem. rewrite Hacc. reflexivity.
Qed.

Lemma persistStage_round_trip_witness :
  getInitialStage (persistStage DRAG_PUZZLE (storageOf [(CACHE_KEY, "1")])) = DRAG_PUZZLE
  /\ persistStage DRAG_PUZZLE blockedStorage = blockedStorage.
Proof.
  split.
  - apply (proj1 (persistStage_round_trip DRAG_PUZZLE (storageOf [(CACHE_KEY, "1")]))).
    reflexivity.
  - apply (proj2 (persistStage_round_trip DRAG_PUZZLE blockedStorage)).
    reflexivity.
Defined.

Lemma digitValue_nonneg (c : ascii) (d : Z) : digitValue c = Some d -> (0 <= d)%Z.
Proof.
  unfold digitValue. destruct (_ && _); [| discriminate].
  intros [= <-]. lia.
Qed.

Lemma digitsValue_nonneg (s : string) (acc : Z) :
  (0 <= acc)%Z -> (0 <= digitsValue acc s)%Z.
Proof.
  revert acc. induction s as [| c s IH]; intros acc Hacc; simpl; [exact Hacc |].
  destruct (digitValue c) as [d |] eqn:Hd; [| exact Hacc].
  apply IH. pose proof (digitValue_nonneg c d Hd). lia.
Qed.

(** X5.  A stored text that reads as a number with a minus sign loads
    START, whatever its digits ("-2", " -0", "-4abc"). *)
Theorem negative_stage_loads_start (ls : Storage) (text rest : string) :
  getItem ls CACHE_KEY = Normal (Some text) ->
  trimStart text = String "-" rest ->
  getInitialStage ls = START.
Proof.
  intros Hget Htrim. unfold getInitialStage. rewrite Hget.
  destruct (truthy (Some text)); [| reflexivity].
  unfold parseInt. rewrite Htrim.
  destruct (startsWithDigit rest); [| reflexivity].
  pose proof (digitsValue_nonneg rest 0 ltac:(lia)) as Hv.
  destruct (digitsValue 0 rest) as [| v | v]; [reflexivity | reflexivity | lia].
Qed.

Lemma negative_stage_loads_start_witness :
  getInitialStage (storageOf [(CACHE_KEY, " -2")]) = START.
Proof.
  apply (negative_stage_loads_start (storageOf [(CACHE_KEY, " -2")]) " -2" "2");
    reflexivity.
Defined.

Lemma truthy_booleanText (b : bool) : truthy (Some (booleanText b)) = true.
Proof. destruct b; reflexivity. Qed.

(** X6.  With a runtime that prints and parses the booleans as JSON does,
    the mute flag written by the effect is the flag read at the next load. *)
Theorem persistMute_round_trip (rt : JSONRuntime) (b : bool) (ls : Storage) :
  standardOnBooleans rt ->
  accessible ls = true ->
  getInitialMuteState (JSON_parse rt) (persistMute rt (JBoolean b) ls) = JBoolean b.
Proof.
  intros Hrt Hacc. destruct (Hrt b) as (Hprint & Hparse & _).
  unfold persistMute, setItem, getInitialMuteState, getItem.
  rewrite Hacc. cbn [items accessible]. rewrite lookup_insert_eq, Hprint.
  rewrite truthy_booleanText, Hparse. reflexivity.
Qed.

Lemma booleanRuntime_standard : standardOnBooleans booleanRuntime.
Proof. intros [|]; split_and!; reflexivity. Qed.

Lemma persistMute_round_trip_witness :
  getInitialMuteState (JSON_parse booleanRuntime)
    (persistMute booleanRuntime (JBoolean true) (storageOf [(CACHE_KEY, "1")]))
  = JBoolean true.
Proof.
  apply (persistMute_round_trip booleanRuntime true (storageOf [(CACHE_KEY, "1")])).
  - exact booleanRuntime_standard.
  - reflexivity.
Defined.

Lemma getInitialMuteState_by_item (parse : string -> completion JSONValue)
      (ls ls' : Storage) :
  getItem ls' MUTE_CACHE_KEY = getItem ls MUTE_CACHE_KEY ->
  getInitialMuteState parse ls' = getInitialMuteState parse ls.
Proof. unfold getInitialMuteState. intros ->. reflexivity. Qed.

Lemma getInitialStage_by_item (ls ls' : Storage) :
  getItem ls' CACHE_KEY = getItem ls CACHE_KEY ->
  getInitialStage ls' = getInitialStage ls.
Proof. unfold getInitialStage. intros ->. reflexivity. Qed.

(** X7.  The two preferences do not disturb each other: writing the stage
    does not change the mute flag read back, writing the mute flag does not
    change the stage read back, and the restart by the override code, which
    removes the stage, leaves the mute flag as it was. *)
Theorem preferences_are_independent (rt : JSONRuntime) :
  (forall s ls,
      getInitialMuteState (JSON_parse rt) (persistStage s ls)
      = getInitialMuteState (JSON_parse rt) ls)
  /\ (forall m ls, getInitialStage (persistMute rt m ls) = getInitialStage ls)
  /\ (forall st ls,
        App.restartSignalled (App.handleSubmit st ls) = true ->
        getInitialMuteState (JSON_parse rt) (App.storageAfter (App.handleSubmit st ls))
        = getInitialMuteState (JSON_parse rt) ls).
Proof.
  split_and!.
  - intros s ls. apply getInitialMuteState_by_item, getItem_persistStage_other.
    intros H. symmetry in H. exact (cache_keys_differ H).
  - intros m ls. apply getInitialStage_by_item, getItem_persistMute_other.
    exact cache_keys_differ.
  - intros st ls. unfold App.handleSubmit.
    destruct (App.isLoading st || App.atOrPastPuzzle (App.stage st)); [discriminate |].
    destruct (String.eqb _ App.OVERRIDE_CODE);
      [| destruct (String.eqb _ _); discriminate].
    unfold removeItem. destruct (accessible ls) eqn:Hacc; [| discriminate].
    intros _. simpl. apply getInitialMuteState_by_item.
    unfold getItem. simpl. rewrite Hacc, lookup_delete_ne; [reflexivity |].
    exact cache_keys_differ.
Qed.

Lemma preferences_are_independent_witness :
  getInitialMuteState (JSON_parse booleanRuntime)
    (App.storageAfter
       (App.handleSubmit (App.mkState CONQUER "0413" None false true)
                         (storageOf [(CACHE_KEY, "2"); (MUTE_CACHE_KEY, "true")])))
  = getInitialMuteState (JSON_parse booleanRuntime)
      (storageOf [(CACHE_KEY, "2"); (MUTE_CACHE_KEY, "true")]).
Proof.
  apply (proj2 (proj2 (preferences_are_independent booleanRuntime))
           (App.mkState CONQUER "0413" None false true)
           (storageOf [(CACHE_KEY, "2"); (MUTE_CACHE_KEY, "true")])).
  reflexivity.
Defined.

(** ** The page and its effects *)

Section PageProperties.

Variable rt : JSONRuntime.

Lemma accessible_persistStage (s : GameStage) (ls : Storage) :
  accessible (persistStage s ls) = accessible ls.
Proof.
  unfold persistStage, setItem. destruct (accessible ls) eqn:Hacc; simpl; auto.
Qed.

Lemma accessible_persistMute (m : JSONValue) (ls : Storage) :
  accessible (persistMute rt m ls) = accessible ls.
Proof.
  unfold persistMute, setItem. destruct (accessible ls) eqn:Hacc; simpl; auto.
Qed.

Lemma getItem_persistStage_same (s : GameStage) (ls : Storage) :
  accessible ls = true ->
  getItem (persistStage s ls) CACHE_KEY = Normal (Some (stageText s)).
Proof.
  intros Hacc. unfold persistStage, setItem, getItem. rewrite Hacc. simpl.
  rewrite lookup_insert_eq. reflexivity.
Qed.

Lemma getItem_persistMute_same (m : JSONValue) (ls : Storage) :
  accessible ls = true ->
  getItem (persistMute rt m ls) MUTE_CACHE_KEY = Normal (Some (JSON_stringify rt m)).
Proof.
  intros Hacc. unfold persistMute, setItem, getItem. rewrite Hacc. simpl.
  rewrite lookup_insert_eq. reflexivity.
Qed.

Lemma mute_key_is_not_stage_key : MUTE_CACHE_KEY <> CACHE_KEY.
Proof. discriminate. Qed.

(** A submission that re-renders keeps the storage and the loading flag. *)
Lemma handleSubmit_rendered (st st' : App.State) (ls ls' : Storage) :
  App.handleSubmit st ls = App.Rendered st' ls' ->
  ls' = ls /\ App.isLoading st' = App.isLoading st.
Proof.
  unfold App.handleSubmit.
  destruct (App.isLoading st || App.atOrPastPuzzle (App.stage st)).
  { intros [= <- <-]. auto. }
  destruct (String.eqb _ App.OVERRIDE_CODE).
  - destruct (removeItem ls CACHE_KEY); [discriminate |]. intros [= <- <-]. auto.
  - destruct (String.eqb _ _); intros [= <- <-]; auto.
Qed.

(** A submission that reloads has removed the stored stage, and nothing
    else, from a storage that can be used. *)
Lemma handleSubmit_reloaded (st : App.State) (ls ls' : Storage) :
  App.handleSubmit st ls = App.Reloaded ls' ->
  accessible ls = true
  /\ accessible ls' = true
  /\ getItem ls' CACHE_KEY = Normal None
  /\ getItem ls' MUTE_CACHE_KEY = getItem ls MUTE_CACHE_KEY.
Proof.
  unfold App.handleSubmit.
  destruct (App.isLoading st || App.atOrPastPuzzle (App.stage st)); [discriminate |].
  destruct (String.eqb _ App.OVERRIDE_CODE);
    [| destruct (String.eqb _ _); discriminate].
  unfold removeItem. destruct (accessible ls) eqn:Hacc; [| discriminate].
  intros [= <-]. unfold getItem. simpl. rewrite Hacc.
  rewrite lookup_delete_eq, lookup_delete_ne by exact cache_keys_differ. auto.
Qed.

Lemma stageEffects_settled (p : Page.State) : Page.settled (Page.stageEffects p).
Proof.
  unfold Page.settled, Page.stageEffects. simpl. split_and!.
  - intros _ H. apply app_eq_nil in H as [_ H]. discriminate.
  - intros _. apply last_snoc.
  - intros H. apply app_eq_nil in H as [_ H]. discriminate.
Qed.

Lemma stageEffects_stored (p : Page.State) :
  (accessible (Page.storage p) = true ->
   getItem (Page.storage p) MUTE_CACHE_KEY
   = Normal (Some (JSON_stringify rt (Page.isMuted p)))) ->
  Page.stored rt (Page.stageEffects p).
Proof.
  intros Hmute. unfold Page.stored, Page.stageEffects. simpl.
  rewrite accessible_persistStage. intros Hacc. split.
  - apply getItem_persistStage_same. exact Hacc.
  - rewrite getItem_persistStage_other by exact mute_key_is_not_stage_key. auto.
Qed.

Lemma muteEffects_stored (p : Page.State) :
  (accessible (Page.storage p) = true ->
   getItem (Page.storage p) CACHE_KEY
   = Normal (Some (stageText (App.stage (Page.app p))))) ->
  Page.stored rt (Page.muteEffects rt p).
Proof.
  intros Hstage. unfold Page.stored, Page.muteEffects. simpl.
  rewrite accessible_persistMute. intros Hacc. split.
  - rewrite getItem_persistMute_other by exact cache_keys_differ. auto.
  - apply getItem_persistMute_same. exact Hacc.
Qed.

Lemma mount_consistent (ls : Storage) : Page.consistent rt (Page.mount rt ls).
Proof.
  unfold Page.mount. split.
  - apply muteEffects_stored. simpl. rewrite accessible_persistStage.
    apply getItem_persistStage_same.
  - apply (stageEffects_settled
             (Page.mkState (App.initialState ls)
                           (getInitialMuteState (JSON_parse rt) ls) None [] ls)).
Qed.

Lemma afterRender_consistent (p new : Page.State) :
  Page.consistent rt p ->
  Page.content new = Page.content p ->
  Page.pending new = Page.pending p ->
  Page.storage new = Page.storage p ->
  App.isLoading (Page.app new) = App.isLoading (Page.app p) ->
  Page.consistent rt (Page.afterRender rt p new).
Proof.
  intros [Hstored Hsettled] Hcontent Hpending Hstorage Hloading.
  unfold Page.afterRender.
  set (staged := if decide (App.stage (Page.app new) = App.stage (Page.app p))
                 then new else Page.stageEffects new).
  assert (Page.settled staged
          /\ (accessible (Page.storage staged) = true ->
              getItem (Page.storage staged) CACHE_KEY
              = Normal (Some (stageText (App.stage (Page.app staged))))
              /\ getItem (Page.storage staged) MUTE_CACHE_KEY
                 = Normal (Some (JSON_stringify rt (Page.isMuted p))))
          /\ Page.isMuted staged = Page.isMuted new) as (Hset & Hst & Hm).
  { subst staged.
    destruct (decide (App.stage (Page.app new) = App.stage (Page.app p))) as [Heq | Hne].
    - split_and!; [| | reflexivity].
      + unfold Page.settled. rewrite Hloading, Hpending, Hcontent, Heq. exact Hsettled.
      + rewrite Hstorage, Heq. exact Hstored.
    - split_and!; [apply stageEffects_settled | | reflexivity].
      simpl. rewrite accessible_persistStage, Hstorage. intros Hacc. split.
      + apply getItem_persistStage_same. exact Hacc.
      + rewrite getItem_persistStage_other by exact mute_key_is_not_stage_key.
        apply Hstored. exact Hacc. }
  destruct (decide (Page.isMuted new = Page.isMuted p)) as [Heq | Hne].
  - split; [| exact Hset]. intros Hacc. rewrite Hm, Heq. apply Hst. exact Hacc.
  - split; [| exact Hset].
    apply muteEffects_stored. intros Hacc. apply Hst. exact Hacc.
Qed.

Lemma handle_consistent (e : Page.Event) (p : Page.State) :
  Page.consistent rt p -> Page.consistent rt (Page.handle rt e p).
Proof.
  intros Hp. destruct e as [text | | | | | |]; simpl.
  - exact Hp.
  - destruct (App.handleSubmit (Page.app p) (Page.storage p)) as [st ls | ls] eqn:Hsub.
    + destruct (handleSubmit_rendered _ _ _ _ Hsub) as [-> Hload].
      apply afterRender_consistent; auto.
    + apply mount_consistent.
  - apply afterRender_consistent; auto.
  - exact Hp.
  - destruct Hp as [Hstored (Hload & Hlast & Hnone)].
    destruct (Page.pending p) as [| s rest] eqn:Hpending; [split; [exact Hstored | ] |].
    { unfold Page.settled. rewrite Hpending. auto. }
    split; [exact Hstored |]. unfold Page.settled. simpl. split_and!.
    + intros H; discriminate.
    + intros Hrest. specialize (Hlast ltac:(discriminate)).
      destruct rest as [| r rest]; [contradiction | exact Hlast].
    + intros ->. specialize (Hlast ltac:(discriminate)). exact Hlast.
  - apply afterRender_consistent; auto.
  - apply mount_consistent.
Qed.

Lemma run_consistent (es : list Page.Event) (p : Page.State) :
  Page.consistent rt p -> Page.consistent rt (Page.run rt es p).
Proof.
  revert p. induction es as [| e es IH]; intros p Hp; simpl; [exact Hp |].
  apply IH, handle_consistent, Hp.
Qed.

Lemma mount_stage (ls : Storage) :
  App.stage (Page.app (Page.mount rt ls)) = getInitialStage ls.
Proof. reflexivity. Qed.

Lemma mount_isMuted (ls : Storage) :
  Page.isMuted (Page.mount rt ls) = getInitialMuteState (JSON_parse rt) ls.
Proof. reflexivity. Qed.

End PageProperties.

Section PageTheorems.

Variable rt : JSONRuntime.

Lemma afterRender_app_stage (p new : Page.State) :
  App.stage (Page.app (Page.afterRender rt p new)) = App.stage (Page.app new).
Proof.
  unfold Page.afterRender.
  destruct (decide (App.stage (Page.app new) = App.stage (Page.app p)));
    destruct (decide (Page.isMuted new = Page.isMuted p)); reflexivity.
Qed.

Lemma afterRender_isMuted (p new : Page.State) :
  Page.isMuted (Page.afterRender rt p new) = Page.isMuted new.
Proof.
  unfold Page.afterRender.
  destruct (decide (App.stage (Page.app new) = App.stage (Page.app p)));
    destruct (decide (Page.isMuted new = Page.isMuted p)); reflexivity.
Qed.

Lemma afterRender_accessible (p new : Page.State) :
  accessible (Page.storage (Page.afterRender rt p new)) = accessible (Page.storage new).
Proof.
  unfold Page.afterRender.
  destruct (decide (App.stage (Page.app new) = App.stage (Page.app p)));
    destruct (decide (Page.isMuted new = Page.isMuted p)); simpl;
    rewrite ?accessible_persistMute, ?accessible_persistStage; reflexivity.
Qed.

Lemma afterRender_blocked (p new : Page.State) :
  accessible (Page.storage new) = false ->
  Page.storage (Page.afterRender rt p new) = Page.storage new.
Proof.
  intros Hacc. unfold Page.afterRender.
  assert (forall s, persistStage s (Page.storage new) = Page.storage new) as Hs.
  { intros s. unfold persistStage, setItem. rewrite Hacc. reflexivity. }
  assert (forall m, persistMute rt m (Page.storage new) = Page.storage new) as Hm.
  { intros m. unfold persistMute, setItem. rewrite Hacc. reflexivity. }
  destruct (decide (App.stage (Page.app new) = App.stage (Page.app p)));
    destruct (decide (Page.isMuted new = Page.isMuted p)); simpl;
    rewrite ?Hs, ?Hm; reflexivity.
Qed.

Lemma mount_accessible (ls : Storage) :
  accessible (Page.storage (Page.mount rt ls)) = accessible ls.
Proof.
  unfold Page.mount. simpl. rewrite accessible_persistMute, accessible_persistStage.
  reflexivity.
Qed.

Lemma mount_blocked (ls : Storage) :
  accessible ls = false -> Page.storage (Page.mount rt ls) = ls.
Proof.
  intros Hacc. unfold Page.mount. simpl.
  unfold persistMute, persistStage, setItem. rewrite Hacc. simpl. rewrite Hacc.
  reflexivity.
Qed.

Lemma handle_accessible (e : Page.Event) (p : Page.State) :
  accessible (Page.storage (Page.handle rt e p)) = accessible (Page.storage p).
Proof.
  destruct e as [text | | | | | |]; simpl; try reflexivity.
  - destruct (App.handleSubmit (Page.app p) (Page.storage p)) as [st ls | ls] eqn:Hsub.
    + destruct (handleSubmit_rendered _ _ _ _ Hsub) as [-> _].
      rewrite afterRender_accessible; reflexivity.
    + destruct (handleSubmit_reloaded _ _ _ Hsub) as (Hacc & Hacc' & _).
      rewrite mount_accessible. congruence.
  - rewrite afterRender_accessible; reflexivity.
  - destruct (Page.pending p); reflexivity.
  - rewrite afterRender_accessible; reflexivity.
  - apply mount_accessible.
Qed.

Lemma run_accessible (es : list Page.Event) (p : Page.State) :
  accessible (Page.storage (Page.run rt es p)) = accessible (Page.storage p).
Proof.
  revert p. induction es as [| e es IH]; intros p; simpl; [reflexivity |].
  rewrite IH. apply handle_accessible.
Qed.

Lemma handle_blocked (e : Page.Event) (p : Page.State) :
  accessible (Page.storage p) = false ->
  Page.storage (Page.handle rt e p) = Page.storage p.
Proof.
  intros Hacc. destruct e as [text | | | | | |]; simpl; try reflexivity.
  - destruct (App.handleSubmit (Page.app p) (Page.storage p)) as [st ls | ls] eqn:Hsub.
    + destruct (handleSubmit_rendered _ _ _ _ Hsub) as [-> _].
      rewrite afterRender_blocked; [reflexivity | exact Hacc].
    + destruct (handleSubmit_reloaded _ _ _ Hsub) as (Hacc' & _). congruence.
  - rewrite afterRender_blocked; [reflexivity | exact Hacc].
  - destruct (Page.pending p); reflexivity.
  - rewrite afterRender_blocked; [reflexivity | exact Hacc].
  - apply mount_blocked. exact Hacc.
Qed.

Lemma run_blocked (es : list Page.Event) (p : Page.State) :
  accessible (Page.storage p) = false ->
  Page.storage (Page.run rt es p) = Page.storage p.
Proof.
  revert p. induction es as [| e es IH]; intros p Hacc; simpl; [reflexivity |].
  rewrite IH by (rewrite handle_accessible; exact Hacc).
  apply handle_blocked. exact Hacc.
Qed.

(** X8.  Progress survives a reload.  After any sequence of events on a
    page loaded from a storage that can be used, loading the page again
    from what has been stored shows the stage the user was at.  With a
    storage that cannot be used nothing is ever stored, and a reload starts
    at START. *)
Theorem reload_resumes_stage (ls : Storage) (es : list Page.Event) :
  let p := Page.run rt es (Page.mount rt ls) in
  (accessible ls = true ->
   getInitialStage (Page.storage p) = App.stage (Page.app p)
   /\ App.stage (Page.app (Page.handle rt Page.Reload p)) = App.stage (Page.app p))
  /\ (accessible ls = false ->
      Page.storage p = ls
      /\ App.stage (Page.app (Page.handle rt Page.Reload p)) = START).
Proof.
  intros p. split; intros Hacc.
  - assert (getInitialStage (Page.storage p) = App.stage (Page.app p)) as Hsync.
    { destruct (run_consistent rt es _ (mount_consistent rt ls)) as [Hstored _].
      fold p in Hstored. apply getInitialStage_of_stageText, Hstored.
      subst p. rewrite run_accessible, mount_accessible. exact Hacc. }
    split; [exact Hsync |]. cbn [Page.handle]. rewrite mount_stage. exact Hsync.
  - assert (Page.storage p = ls) as Hsame.
    { subst p. rewrite run_blocked; rewrite ?mount_accessible; auto using mount_blocked. }
    split; [exact Hsame |]. cbn [Page.handle]. rewrite mount_stage, Hsame.
    unfold getInitialStage, getItem. rewrite Hacc. reflexivity.
Qed.

(** X9.  The mute flag survives reloads and submissions.  With a runtime
    that prints and parses the booleans as JSON does and a storage that can
    be used, after any sequence of events a boolean mute flag is found
    again after a reload, and a submission (the restart by the override
    code included) leaves it as it is. *)
Theorem mute_flag_survives (ls : Storage) (es : list Page.Event) (b : bool) :
  standardOnBooleans rt ->
  accessible ls = true ->
  let p := Page.run rt es (Page.mount rt ls) in
  Page.isMuted p = JBoolean b ->
  Page.isMuted (Page.handle rt Page.Reload p) = JBoolean b
  /\ Page.isMuted (Page.handle rt Page.Submit p) = JBoolean b.
Proof.
  intros Hrt Hacc p Hmuted.
  destruct (run_consistent rt es _ (mount_consistent rt ls)) as [Hstored _].
  fold p in Hstored.
  assert (accessible (Page.storage p) = true) as Hacc'
    by (subst p; rewrite run_accessible, mount_accessible; exact Hacc).
  destruct (Hstored Hacc') as [_ Hitem]. rewrite Hmuted in Hitem.
  destruct (Hrt b) as (Hprint & Hparse & _).
  assert (forall ls', getItem ls' MUTE_CACHE_KEY = getItem (Page.storage p) MUTE_CACHE_KEY ->
                      getInitialMuteState (JSON_parse rt) ls' = JBoolean b) as Hload.
  { intros ls' Hsame. unfold getInitialMuteState.
    rewrite Hsame, Hitem, Hprint, truthy_booleanText, Hparse. reflexivity. }
  split.
  - cbn [Page.handle]. rewrite mount_isMuted. apply Hload. reflexivity.
  - cbn [Page.handle].
    destruct (App.handleSubmit (Page.app p) (Page.storage p)) as [st ls' | ls'] eqn:Hsub.
    + rewrite afterRender_isMuted. exact Hmuted.
    + rewrite mount_isMuted. apply Hload.
      apply (handleSubmit_reloaded _ _ _ Hsub).
Qed.

Lemma run_content_timers (p : Page.State) :
  Page.settled p ->
  let q := Page.run rt (replicate (length (Page.pending p)) Page.ContentTimer) p in
  App.isLoading (Page.app q) = false
  /\ Page.content q = Some (App.stage (Page.app p))
  /\ Page.pending q = []
  /\ App.stage (Page.app q) = App.stage (Page.app p)
  /\ Page.storage q = Page.storage p.
Proof.
  remember (Page.pending p) as pend eqn:Hpend.
  revert p Hpend. induction pend as [| s rest IH]; intros p Hpend Hsettled; simpl.
  - destruct Hsettled as (Hload & _ & Hnone). rewrite <- Hpend in *.
    split_and!; auto.
    destruct (App.isLoading (Page.app p)); [| reflexivity].
    exfalso. apply Hload; reflexivity.
  - rewrite <- Hpend.
    pose proof (handle_consistent rt Page.ContentTimer p) as Hstep.
    simpl in Hstep. rewrite <- Hpend in Hstep.
    set (p' := Page.mkState
                 (App.mkState (App.stage (Page.app p)) (App.inputValue (Page.app p))
                              (App.error (Page.app p)) false
                              (App.hasInteracted (Page.app p)))
                 (Page.isMuted p) (Some s) rest (Page.storage p)) in *.
    assert (Page.settled p') as Hsettled'.
    { destruct Hsettled as (Hload & Hlast & Hnone). rewrite <- Hpend in *.
      unfold Page.settled. simpl. split_and!.
      - intros H; discriminate.
      - intros Hrest. specialize (Hlast ltac:(discriminate)).
        destruct rest as [| r rest']; [contradiction | exact Hlast].
      - intros ->. specialize (Hlast ltac:(discriminate)). exact Hlast. }
    apply (IH p' eq_refl Hsettled').
Qed.

(** X10.  The content keeps up with the stage.  After any sequence of
    events: a hidden content always has a timer pending; and once the
    pending timers have expired the content is shown ([isLoading] false)
    and is the content of the current stage, whatever stage each timer was
    set for. *)
Theorem content_follows_stage (ls : Storage) (es : list Page.Event) :
  let p := Page.run rt es (Page.mount rt ls) in
  let q := Page.run rt (replicate (length (Page.pending p)) Page.ContentTimer) p in
  (App.isLoading (Page.app p) = true -> Page.pending p <> [])
  /\ App.isLoading (Page.app q) = false
  /\ Page.content q = Some (App.stage (Page.app p))
  /\ Page.pending q = []
  /\ App.stage (Page.app q) = App.stage (Page.app p).
Proof.
  intros p q.
  destruct (run_consistent rt es _ (mount_consistent rt ls)) as [_ Hsettled].
  fold p in Hsettled.
  destruct (run_content_timers p Hsettled) as (H1 & H2 & H3 & H4 & _).
  split; [apply Hsettled |]. split_and!; assumption.
Qed.

Lemma handleSubmit_not_final (st st' : App.State) (ls ls' : Storage) :
  App.handleSubmit st ls = App.Rendered st' ls' ->
  App.stage st <> FINAL_CARD -> App.stage st' <> FINAL_CARD.
Proof.
  unfold App.handleSubmit.
  destruct (App.isLoading st || App.atOrPastPuzzle (App.stage st)) eqn:Hguard.
  { intros [= <- <-]. auto. }
  apply orb_false_iff in Hguard as [_ Hstage].
  destruct (String.eqb _ App.OVERRIDE_CODE).
  - destruct (removeItem ls CACHE_KEY); [discriminate |]. intros [= <- <-]. auto.
  - destruct (String.eqb _ _); intros [= <- <-]; simpl; auto.
    destruct (App.stage st); try discriminate; simpl; discriminate.
Qed.

Lemma handle_not_final (e : Page.Event) (p : Page.State) :
  e <> Page.Solve ->
  Page.consistent rt p ->
  App.stage (Page.app p) <> FINAL_CARD ->
  App.stage (Page.app (Page.handle rt e p)) <> FINAL_CARD.
Proof.
  intros He [Hstored _] Hstage.
  assert (getInitialStage (Page.storage p) <> FINAL_CARD) as Hload.
  { destruct (accessible (Page.storage p)) eqn:Hacc.
    - rewrite (getInitialStage_of_stageText (App.stage (Page.app p)));
        [exact Hstage | apply Hstored; exact Hacc].
    - unfold getInitialStage, getItem. rewrite Hacc. discriminate. }
  destruct e as [text | | | | | |]; cbn [Page.handle];
    try exact Hstage; try contradiction.
  - destruct (App.handleSubmit (Page.app p) (Page.storage p)) as [st ls | ls] eqn:Hsub.
    + rewrite afterRender_app_stage. simpl.
      eapply handleSubmit_not_final; [exact Hsub | exact Hstage].
    + rewrite mount_stage. unfold getInitialStage.
      destruct (handleSubmit_reloaded _ _ _ Hsub) as (_ & _ & -> & _). discriminate.
  - rewrite afterRender_app_stage. exact Hstage.
  - destruct (Page.pending p); exact Hstage.
  - rewrite mount_stage. exact Hload.
Qed.

(** X11.  The final card cannot be reached without the puzzle: on a page
    loaded from a storage whose stage text, if there is one, is an ASCII
    text that does not load FINAL_CARD, no sequence of typing, submissions,
    mute toggles, timers and reloads that has no solve signal in it leads
    to FINAL_CARD. *)
Theorem final_card_needs_solve (ls : Storage) (es : list Page.Event) :
  (forall text, getItem ls CACHE_KEY = Normal (Some text) -> isASCII text = true) ->
  getInitialStage ls <> FINAL_CARD ->
  Page.Solve ∉ es ->
  App.stage (Page.app (Page.run rt es (Page.mount rt ls))) <> FINAL_CARD.
Proof.
  intros _ Hload Hes.
  assert (forall p, Page.consistent rt p -> App.stage (Page.app p) <> FINAL_CARD ->
                    App.stage (Page.app (Page.run rt es p)) <> FINAL_CARD) as Hrun.
  { induction es as [| e es' IH]; intros p Hp Hstage; simpl; [exact Hstage |].
    apply not_elem_of_cons in Hes as [He Hes'].
    apply (IH Hes').
    - apply handle_consistent. exact Hp.
    - apply handle_not_final; auto. }
  apply Hrun; [apply mount_consistent | rewrite mount_stage; exact Hload].
Qed.

End PageTheorems.

Lemma reload_resumes_stage_witness :
  let p := Page.run booleanRuntime
             [Page.ContentTimer; Page.Change "conhecimento"; Page.Submit]
             (Page.mount booleanRuntime (storageOf [])) in
  getInitialStage (Page.storage p) = App.stage (Page.app p)
  /\ App.stage (Page.app (Page.handle booleanRuntime Page.Reload p))
     = App.stage (Page.app p).
Proof.
  apply (proj1 (reload_resumes_stage booleanRuntime (storageOf [])
                  [Page.ContentTimer; Page.Change "conhecimento"; Page.Submit])).
  reflexivity.
Defined.

Lemma mute_flag_survives_witness :
  Page.isMuted
    (Page.handle booleanRuntime Page.Submit
       (Page.run booleanRuntime [Page.ToggleMute; Page.ContentTimer; Page.Change "0413"]
          (Page.mount booleanRuntime (storageOf []))))
  = JBoolean true.
Proof.
  apply (mute_flag_survives booleanRuntime (storageOf [])
           [Page.ToggleMute; Page.ContentTimer; Page.Change "0413"] true).
  - exact booleanRuntime_standard.
  - reflexivity.
  - vm_compute. reflexivity.
Defined.

Lemma content_follows_stage_witness :
  let p := Page.run booleanRuntime
             [Page.ContentTimer; Page.Change "conhecimento"; Page.Submit; Page.Solve]
             (Page.mount booleanRuntime (storageOf [])) in
  let q := Page.run booleanRuntime
             (replicate (length (Page.pending p)) Page.ContentTimer) p in
  App.isLoading (Page.app q) = false
  /\ Page.content q = Some FINAL_CARD.
Proof.
  destruct (content_follows_stage booleanRuntime (storageOf [])
              [Page.ContentTimer; Page.Change "conhecimento"; Page.Submit; Page.Solve])
    as (_ & Hshown & Hcontent & _).
  split; [exact Hshown | exact Hcontent].
Defined.

Lemma final_card_needs_solve_witness :
  App.stage
    (Page.app
       (Page.run booleanRuntime
          [Page.ContentTimer; Page.Change "busque"; Page.Submit; Page.Reload]
          (Page.mount booleanRuntime (storageOf [(CACHE_KEY, "2")]))))
  <> FINAL_CARD.
Proof.
  apply (final_card_needs_solve booleanRuntime (storageOf [(CACHE_KEY, "2")])
           [Page.ContentTimer; Page.Change "busque"; Page.Submit; Page.Reload]).
  - intros text Htext. vm_compute in Htext. injection Htext as <-. reflexivity.
  - vm_compute. discriminate.
  - rewrite !not_elem_of_cons. split_and!; try discriminate. apply not_elem_of_nil.
Defined.

(** ** More on the word puzzle *)

(** Closes a decidable goal about concrete data by evaluating its decision. *)
Ltac by_computation :=
  match goal with
  | |- ?P => apply (bool_decide_eq_true_1 P); vm_compute; reflexivity
  end.

(** X12.  The words are neither lost nor duplicated along any run in
    which no word is dropped while it is the selected one (clicks on the
    words on screen, clicks on the three slots, drags begun on a word,
    drops of any text anywhere, timers): pool and slots then hold three
    words in all, which are the three words of the vocabulary, whatever the
    order the words were first shown in. *)
Theorem words_are_kept (INITIAL_WORDS : list string) (es : list Event) :
  INITIAL_WORDS ≡ₚ VOCABULARY ->
  admissibleTrace INITIAL_WORDS (initialState INITIAL_WORDS) es ->
  let st := run INITIAL_WORDS es (initialState INITIAL_WORDS) in
  length (draggableWords st) + length (placedWords (droppedWords st)) = 3
  /\ draggableWords st ++ placedWords (droppedWords st) ≡ₚ VOCABULARY
  /\ length (droppedWords st) = 3
  /\ (forall w, selectedWord st = Some w -> w ∈ draggableWords st).
Proof.
  intros Hinit Htrace st.
  destruct (run_keeps_words INITIAL_WORDS Hinit es (initialState INITIAL_WORDS)
              (initialState_wellFormed INITIAL_WORDS Hinit) Htrace)
    as (Hwf & Hcount & Hperm).
  fold st in Hwf, Hcount, Hperm.
  split_and!; [exact Hcount | exact Hperm | apply Hwf | apply Hwf].
Qed.

Lemma words_are_kept_witness :
  let st := run ["BUSQUE"; "CONHECIMENTO"; "CONQUISTAR"]
                [WordClick "BUSQUE"; DragStart "BUSQUE"; Drop "BUSQUE" 0;
                 SlotClick 1; Drop "alheio" 2; WordClick "CONQUISTAR"; SlotClick 0]
                (initialState ["BUSQUE"; "CONHECIMENTO"; "CONQUISTAR"]) in
  length (draggableWords st) + length (placedWords (droppedWords st)) = 3.
Proof.
  apply (words_are_kept ["BUSQUE"; "CONHECIMENTO"; "CONQUISTAR"]
           [WordClick "BUSQUE"; DragStart "BUSQUE"; Drop "BUSQUE" 0;
            SlotClick 1; Drop "alheio" 2; WordClick "CONQUISTAR"; SlotClick 0]).
  - apply (Permutation_app_comm ["BUSQUE"] ["CONHECIMENTO"; "CONQUISTAR"]).
  - cbn [admissibleTrace admissible]. split_and!; try exact I; by_computation.
Defined.

Lemma three_permutations {A} (a b c : A) (l : list A) :
  l ≡ₚ [a; b; c] ->
  l = [a; b; c] \/ l = [b; a; c] \/ l = [b; c; a]
  \/ l = [a; c; b] \/ l = [c; a; b] \/ l = [c; b; a].
Proof.
  intros H. symmetry in H. apply permutations_Permutation in H.
  simpl in H. rewrite !elem_of_cons, elem_of_nil in H. tauto.
Qed.

(** X13.  The puzzle can be solved from every first order of the words,
    in every order of placing them, by drag and drop as well as by clicks:
    once BUSQUE is on the first slot, CONQUISTAR on the second and
    CONHECIMENTO on the third, the pool is empty, no error is shown and
    [onSolve] is due in 1000 ms. *)
Theorem puzzle_is_solvable (INITIAL_WORDS : list string) (moves : list (string * nat)) :
  INITIAL_WORDS ≡ₚ VOCABULARY ->
  moves ≡ₚ SOLUTION ->
  let solved :=
    mkState [] [Word "BUSQUE"; Word "CONQUISTAR"; Word "CONHECIMENTO"] None None
            [(OnSolve, 1000)] in
  run INITIAL_WORDS (byDrag moves) (initialState INITIAL_WORDS) = solved
  /\ run INITIAL_WORDS (byClick moves) (initialState INITIAL_WORDS) = solved.
Proof.
  intros Hinit Hmoves solved.
  apply three_permutations in Hinit. apply three_permutations in Hmoves.
  destruct Hinit as [-> | [-> | [-> | [-> | [-> | ->]]]]];
    destruct Hmoves as [-> | [-> | [-> | [-> | [-> | ->]]]]];
    split; vm_compute; reflexivity.
Qed.

Lemma puzzle_is_solvable_witness :
  run ["CONQUISTAR"; "BUSQUE"; "CONHECIMENTO"]
      (byClick [("CONHECIMENTO", 2); ("BUSQUE", 0); ("CONQUISTAR", 1)])
      (initialState ["CONQUISTAR"; "BUSQUE"; "CONHECIMENTO"])
  = mkState [] [Word "BUSQUE"; Word "CONQUISTAR"; Word "CONHECIMENTO"] None None
            [(OnSolve, 1000)].
Proof.
  apply (puzzle_is_solvable ["CONQUISTAR"; "BUSQUE"; "CONHECIMENTO"]
           [("CONHECIMENTO", 2); ("BUSQUE", 0); ("CONQUISTAR", 1)]).
  - apply (Permutation_app_comm ["CONQUISTAR"; "BUSQUE"] ["CONHECIMENTO"]).
  - apply (Permutation_app_comm [("CONHECIMENTO", 2)] [("BUSQUE", 0); ("CONQUISTAR", 1)]).
Defined.

Lemma solveTimers_checkSequence (seq : list cell) (st : State) :
  length (solveTimers st) < length (solveTimers (checkSequence seq st)) ->
  (Null ∉ seq) /\ toUpperCase (join " " seq) = CORRECT_SEQUENCE.
Proof.
  unfold checkSequence, solveTimers.
  destruct (forallb notNull seq) eqn:Hfull; [| lia].
  apply forallb_notNull in Hfull.
  destruct (String.eqb_spec (toUpperCase (join " " seq)) CORRECT_SEQUENCE) as [Heq | Hne].
  - auto.
  - simpl. rewrite filter_app. simpl.
    rewrite filter_cons_False by (simpl; discriminate).
    rewrite filter_nil, app_nil_r. lia.
Qed.

Lemma solveTimers_delete (k : nat) (ts : list (Callback * nat)) :
  length (filter (fun t => t.1 = OnSolve) (delete k ts))
  <= length (filter (fun t => t.1 = OnSolve) ts).
Proof.
  revert k. induction ts as [| t ts IH]; intros [| k]; simpl; try lia.
  - rewrite filter_cons. destruct (decide (t.1 = OnSolve)); simpl; lia.
  - rewrite !filter_cons. specialize (IH k).
    destruct (decide (t.1 = OnSolve)); simpl; lia.
Qed.

(** A full, well-formed board that reads the sentence is the solution. *)
Lemma wellFormed_sentence (st : State) :
  wellFormed st ->
  Null ∉ droppedWords st ->
  toUpperCase (join " " (droppedWords st)) = CORRECT_SEQUENCE ->
  droppedWords st = [Word "BUSQUE"; Word "CONQUISTAR"; Word "CONHECIMENTO"].
Proof.
  intros (Hperm & Hlen & Hdef & _) Hfull Hjoin.
  destruct (decide (droppedWords st
                    = [Word "BUSQUE"; Word "CONQUISTAR"; Word "CONHECIMENTO"]))
    as [Heq | Hne]; [exact Heq | exfalso].
  destruct (droppedWords st) as [| a [| b [| c [| d l]]]] eqn:Hslots; try discriminate.
  assert (forall x, x ∈ [a; b; c] -> exists w, x = Word w) as Hword.
  { intros x Hx. destruct x as [| | w]; [contradiction | | eauto].
    rewrite Forall_forall in Hdef. exfalso. apply (Hdef Undefined Hx). reflexivity. }
  destruct (Hword a) as [x ->]; [rewrite !elem_of_cons; auto |].
  destruct (Hword b) as [y ->]; [rewrite !elem_of_cons; auto |].
  destruct (Hword c) as [z ->]; [rewrite !elem_of_cons; auto |].
  simpl in Hperm.
  assert (draggableWords st = []) as Hpool.
  { apply Permutation_length in Hperm. rewrite length_app in Hperm. simpl in Hperm.
    destruct (draggableWords st); [reflexivity | simpl in Hperm; lia]. }
  rewrite Hpool in Hperm. simpl in Hperm.
  destruct (wrong_arrangement_differs [Word x; Word y; Word z] eq_refl Hperm Hne)
    as [_ Hwrong].
  contradiction.
Qed.

(** X14.  The solve signal is never set for a wrong board.  Whenever an
    event of a run as in X12 leaves one more [onSolve] timer pending than
    before, the slots hold BUSQUE, CONQUISTAR, CONHECIMENTO in that
    order. *)
Theorem solve_only_on_the_sentence
        (INITIAL_WORDS : list string) (e : Event) (st : State) :
  INITIAL_WORDS ≡ₚ VOCABULARY ->
  wellFormed st ->
  admissible st e ->
  length (solveTimers st) < length (solveTimers (handle INITIAL_WORDS e st)) ->
  droppedWords (handle INITIAL_WORDS e st)
  = [Word "BUSQUE"; Word "CONQUISTAR"; Word "CONHECIMENTO"].
Proof.
  intros Hinit Hwf Hadm Hmore.
  pose proof (handle_wellFormed INITIAL_WORDS Hinit st e Hwf Hadm) as Hwf'.
  assert ((Null ∉ droppedWords (handle INITIAL_WORDS e st))
          /\ toUpperCase (join " " (droppedWords (handle INITIAL_WORDS e st)))
             = CORRECT_SEQUENCE) as [Hfull Hjoin];
    [| apply wellFormed_sentence; assumption].
  clear Hwf Hwf' Hadm Hinit.
  destruct e as [w | w i | w | i | k]; simpl in *.
  - unfold solveTimers in Hmore. simpl in Hmore. lia.
  - unfold handleDrop in *.
    destruct (negb (bool_decide (w ∈ draggableWords st))
              || notNull (at_index (droppedWords st) i)); [lia |].
    match goal with
    | H : context [checkSequence ?seq ?s] |- _ =>
        destruct (checkSequence_words seq s) as (_ & -> & _);
        apply (solveTimers_checkSequence seq s); exact H
    end.
  - unfold solveTimers in Hmore. simpl in Hmore. lia.
  - unfold handleSlotClick in *.
    destruct (truthy (selectedWord st)
              && negb (cellTruthy (at_index (droppedWords st) i))).
    + match goal with
      | H : context [checkSequence ?seq ?s] |- _ =>
          destruct (checkSequence_words seq s) as (_ & -> & _);
          apply (solveTimers_checkSequence seq s); exact H
      end.
    + destruct (cellTruthy (at_index (droppedWords st) i));
        unfold solveTimers in Hmore; simpl in Hmore; lia.
  - unfold timeout in *.
    destruct (timers st !! k) as [[[|] ms] |]; unfold solveTimers in Hmore;
      simpl in Hmore; try lia;
      pose proof (solveTimers_delete k (timers st)); lia.
Qed.

Lemma solve_only_on_the_sentence_witness :
  droppedWords
    (handle VOCABULARY (Drop "CONQUISTAR" 1)
       (mkState ["CONQUISTAR"] [Word "BUSQUE"; Null; Word "CONHECIMENTO"] None None []))
  = [Word "BUSQUE"; Word "CONQUISTAR"; Word "CONHECIMENTO"].
Proof.
  apply (solve_only_on_the_sentence VOCABULARY (Drop "CONQUISTAR" 1)
           (mkState ["CONQUISTAR"] [Word "BUSQUE"; Null; Word "CONHECIMENTO"]
                    None None [])).
  - reflexivity.
  - unfold wellFormed. simpl. split_and!.
    + apply (Permutation_app_comm ["CONQUISTAR"; "BUSQUE"] ["CONHECIMENTO"]).
    + reflexivity.
    + repeat constructor; discriminate.
    + intros w Hw. discriminate.
  - simpl. discriminate.
  - vm_compute. lia.
Defined.

(** X15.  Placing a word and clicking its slot again undoes the
    placement: the slots are as before and the pool holds the same words,
    the word now last; nothing is selected. *)
Theorem place_then_vacate (st : State) (w : string) (i : nat) :
  NoDup (draggableWords st) ->
  w ∈ draggableWords st ->
  w <> "" ->
  at_index (droppedWords st) i = Null ->
  let st' := handleSlotClick i (handleDrop w i st) in
  droppedWords st' = droppedWords st
  /\ draggableWords st' = filter (fun x => x ≠ w) (draggableWords st) ++ [w]
  /\ draggableWords st' ≡ₚ draggableWords st
  /\ selectedWord st' = None.
Proof.
  intros Hnd Hin Hw Hslot st'.
  assert (droppedWords st !! i = Some Null) as Hlookup
    by (apply at_index_in_range; [exact Hslot | discriminate]).
  pose proof (lookup_lt_Some _ _ _ Hlookup) as Hi.
  assert (exists e t,
             handleDrop w i st
             = mkState (filter (fun x => x ≠ w) (draggableWords st))
                       (<[i:=Word w]> (droppedWords st)) e (selectedWord st) t)
    as (e & t & Hdrop).
  { unfold handleDrop. rewrite bool_decide_eq_true_2 by exact Hin.
    rewrite Hslot. simpl. rewrite (assign_in_range _ _ _ _ Hlookup).
    unfold checkSequence.
    destruct (forallb notNull _); [destruct (String.eqb _ _) |]; eauto. }
  assert (st' = mkState (filter (fun x => x ≠ w) (draggableWords st) ++ [w])
                        (droppedWords st) e None t) as ->.
  { subst st'. rewrite Hdrop. unfold handleSlotClick, at_index. simpl.
    rewrite list_lookup_insert_eq by exact Hi. simpl.
    apply String.eqb_neq in Hw. rewrite Hw. simpl. rewrite andb_false_r.
    unfold assign. rewrite length_insert.
    destruct (decide (i < length (droppedWords st))); [| lia].
    rewrite list_insert_insert_eq, list_insert_id by exact Hlookup. reflexivity. }
  simpl. split_and!; try reflexivity.
  rewrite (filter_out_present w (draggableWords st) Hnd Hin) at 2.
  symmetry. apply Permutation_cons_append.
Qed.

Lemma place_then_vacate_witness :
  droppedWords (handleSlotClick 1 (handleDrop "BUSQUE" 1 (initialState VOCABULARY)))
  = droppedWords (initialState VOCABULARY).
Proof.
  apply (place_then_vacate (initialState VOCABULARY) "BUSQUE" 1).
  - exact vocabulary_NoDup.
  - exact busque_in_vocabulary.
  - discriminate.
  - reflexivity.
Defined.

(** X16.  A drop changes the puzzle exactly when its text is a word of
    the pool and the slot is an empty one of the array: a foreign text, an
    occupied slot or an index past the last slot leave the state as it is;
    otherwise the word leaves the pool and sits in the slot. *)
Theorem handleDrop_effective (st : State) (w : string) (i : nat) :
  (w ∉ draggableWords st -> handleDrop w i st = st)
  /\ (length (droppedWords st) <= i -> handleDrop w i st = st)
  /\ (at_index (droppedWords st) i <> Null -> handleDrop w i st = st)
  /\ (w ∈ draggableWords st ->
      at_index (droppedWords st) i = Null ->
      (w ∉ draggableWords (handleDrop w i st))
      /\ length (draggableWords (handleDrop w i st)) < length (draggableWords st)
      /\ at_index (droppedWords (handleDrop w i st)) i = Word w
      /\ length (droppedWords (handleDrop w i st)) = length (droppedWords st)).
Proof.
  split_and!.
  - intros Hout. unfold handleDrop.
    rewrite bool_decide_eq_false_2 by exact Hout. reflexivity.
  - intros Hi. unfold handleDrop, at_index.
    rewrite (lookup_ge_None_2 _ _ Hi). simpl. rewrite orb_true_r. reflexivity.
  - intros Hslot. unfold handleDrop.
    destruct (at_index (droppedWords st) i); [contradiction | |];
      simpl; rewrite orb_true_r; reflexivity.
  - intros Hin Hslot.
    assert (droppedWords st !! i = Some Null) as Hlookup
      by (apply at_index_in_range; [exact Hslot | discriminate]).
    pose proof (lookup_lt_Some _ _ _ Hlookup) as Hi.
    unfold handleDrop. rewrite bool_decide_eq_true_2 by exact Hin.
    rewrite Hslot. simpl. rewrite (assign_in_range _ _ _ _ Hlookup).
    match goal with
    | |- context [checkSequence ?seq ?s] =>
        destruct (checkSequence_words seq s) as (-> & -> & _)
    end.
    simpl. split_and!.
    + rewrite list_elem_of_filter. intros [Hne _]. apply Hne. reflexivity.
    + apply (length_filter_lt _ _ w); [exact Hin |]. intros Hne. apply Hne. reflexivity.
    + unfold at_index. rewrite list_lookup_insert_eq by exact Hi. reflexivity.
    + apply length_insert.
Qed.

Lemma handleDrop_effective_witness :
  handleDrop "alheio" 0 (initialState VOCABULARY) = initialState VOCABULARY
  /\ handleDrop "BUSQUE" 3 (initialState VOCABULARY) = initialState VOCABULARY
  /\ at_index (droppedWords (handleDrop "BUSQUE" 2 (initialState VOCABULARY))) 2
     = Word "BUSQUE".
Proof.
  destruct (handleDrop_effective (initialState VOCABULARY) "alheio" 0) as (Hforeign & _).
  destruct (handleDrop_effective (initialState VOCABULARY) "BUSQUE" 3) as (_ & Hpast & _).
  destruct (handleDrop_effective (initialState VOCABULARY) "BUSQUE" 2) as (_ & _ & _ & Hput).
  split_and!.
  - apply Hforeign. unfold initialState, VOCABULARY. simpl.
    rewrite !not_elem_of_cons. split_and!; try discriminate. apply not_elem_of_nil.
  - apply Hpast. simpl. lia.
  - apply Hput; [exact busque_in_vocabulary | reflexivity].
Defined.

(** ** The opening screen *)

Lemma opening_mount_steady (firstId : positive) : Opening.steady (Opening.mount firstId).
Proof.
  unfold Opening.steady, Opening.mount. simpl. split; [intros _ | discriminate].
  split_and!; try reflexivity; try discriminate.
  intros t Ht. rewrite !elem_of_cons, elem_of_nil in Ht.
  destruct Ht as [-> | [-> | []]]; simpl; split; auto; discriminate.
Qed.

Lemma opening_clearIfSet_timers (ref : option positive) (st : Opening.State) :
  forall t, t ∈ Opening.timers (Opening.clearIfSet ref st) <->
            t ∈ Opening.timers st /\ ref <> Some (Opening.timerId t).
Proof.
  intros t. destruct ref as [id |]; simpl.
  - rewrite list_elem_of_filter. split; intros [H1 H2]; split; auto; congruence.
  - split; [intros H; split; [exact H | discriminate] | tauto].
Qed.

Lemma opening_clearIfSet_idle (ref : option positive) (st : Opening.State) :
  Opening.idleTimerId (Opening.clearIfSet ref st) = Opening.idleTimerId st.
Proof. destruct ref; reflexivity. Qed.

Lemma opening_clear_both (st : Opening.State) :
  (forall t, t ∈ Opening.timers st ->
             Opening.glitchTimerId st = Some (Opening.timerId t)
             \/ Opening.idleTimerId st = Some (Opening.timerId t)) ->
  Opening.timers
    (Opening.clearIfSet (Opening.idleTimerId st)
       (Opening.clearIfSet (Opening.glitchTimerId st) st)) = [].
Proof.
  intros Hids. apply elem_of_nil_inv. intros t Ht.
  apply opening_clearIfSet_timers in Ht as [Ht Hidle].
  apply opening_clearIfSet_timers in Ht as [Ht Hglitch].
  destruct (Hids t Ht); contradiction.
Qed.

Lemma opening_handleStart_first (st : Opening.State) :
  Opening.steady st ->
  Opening.finishCalled st = false ->
  Opening.handleStart st
  = Opening.mkState Opening.fadeOut true (Opening.glitchTimerId st)
      (Opening.idleTimerId st) [(Opening.nextTimerId st, Opening.OnFinish, 1500)]
      (Pos.succ (Opening.nextTimerId st)) (Opening.showOpening st)
      (Opening.hasInteracted st).
Proof.
  intros [Hbefore _] Hfinish.
  destruct (Hbefore Hfinish) as (_ & Hphase & Htimers).
  pose proof (opening_clear_both st (fun t Ht => proj2 (Htimers t Ht))) as Hclear.
  unfold Opening.handleStart. rewrite Hfinish.
  destruct st as [ph fc g i ts n so hi]. simpl in *.
  assert (Opening.timers
            (Opening.clearIfSet i
               (Opening.clearIfSet g (Opening.mkState ph true g i ts n so hi))) = [])
    as Hclear'.
  { destruct g, i; simpl in *; exact Hclear. }
  destruct ph; try contradiction;
    destruct g, i; simpl in *; rewrite Hclear'; reflexivity.
Qed.

Lemma opening_onFinish_empty (st : Opening.State) :
  Opening.timers st = [] ->
  Opening.onFinish st
  = Opening.mkState (Opening.phase st) (Opening.finishCalled st)
      (Opening.glitchTimerId st) (Opening.idleTimerId st) []
      (Opening.nextTimerId st) false true.
Proof.
  destruct st as [ph fc g i ts n so hi]. simpl. intros ->.
  destruct g, i; reflexivity.
Qed.

Lemma opening_onFinish_hidden (st : Opening.State) :
  Opening.showOpening (Opening.onFinish st) = false.
Proof. destruct st as [ph fc [g |] [i |] ts n so hi]; reflexivity. Qed.

Lemma opening_unlockAudio_steady (st : Opening.State) :
  Opening.steady st -> Opening.steady (Opening.unlockAudio st).
Proof.
  intros [Hbefore Hafter]. split; simpl.
  - exact Hbefore.
  - intros Hfinish. destruct (Hafter Hfinish) as (Hphase & [Hshown | (Hgone & _ & Hnone)]).
    + split; [exact Hphase | left; exact Hshown].
    + split; [exact Hphase | right; auto].
Qed.

Lemma opening_unlockAudio_recorded (st : Opening.State) :
  Opening.hasInteracted st = true -> Opening.unlockAudio st = st.
Proof. destruct st as [ph fc g i ts n so hi]. simpl. intros ->. reflexivity. Qed.

Lemma opening_timeout_found (id : positive) (st : Opening.State) (t : Opening.Timer)
      (rest : list Opening.Timer) :
  filter (fun t => Opening.timerId t = id) (Opening.timers st) = t :: rest ->
  t ∈ Opening.timers st /\ Opening.timerId t = id.
Proof.
  intros Hfound.
  assert (t ∈ filter (fun t => Opening.timerId t = id) (Opening.timers st)) as H
    by (rewrite Hfound; apply elem_of_cons; auto).
  apply list_elem_of_filter in H. tauto.
Qed.

Lemma opening_handle_steady (e : Opening.Event) (st : Opening.State) :
  Opening.steady st -> Opening.steady (Opening.handle e st).
Proof.
  intros Hst. destruct e as [| | | id]; simpl.
  - apply opening_unlockAudio_steady.
    destruct (Opening.showOpening st) eqn:Hshown; [| exact Hst].
    destruct (Opening.finishCalled st) eqn:Hfinish.
    + destruct Hst as [_ Hafter]. destruct (Hafter Hfinish) as (Hphase & _).
      unfold Opening.handleStart. rewrite Hphase.
      split; [congruence | auto].
    + rewrite (opening_handleStart_first st Hst Hfinish).
      split; simpl; [discriminate | intros _].
      split; [reflexivity |]. left. eauto.
  - apply opening_unlockAudio_steady, Hst.
  - apply opening_unlockAudio_steady, Hst.
  - destruct (filter (fun t => Opening.timerId t = id) (Opening.timers st))
      as [| t rest] eqn:Hfound; [exact Hst |].
    destruct (opening_timeout_found id st t rest Hfound) as [Hin Hid].
    destruct (Opening.finishCalled st) eqn:Hfinish.
    + destruct Hst as [_ Hafter].
      destruct (Hafter Hfinish) as (Hphase & [(Hshown & id0 & Htimers) | (_ & _ & Hnone)]);
        [| rewrite Hnone in Hin; inversion Hin].
      rewrite Htimers in Hin. apply list_elem_of_singleton in Hin. subst t.
      unfold Opening.timerId in Hid. simpl in Hid. subst id.
      change (Opening.timerCallback (id0, Opening.OnFinish, 1500)) with Opening.OnFinish.
      unfold Opening.clearTimeout. rewrite Htimers. simpl.
      rewrite filter_cons_False by (simpl; intros H; apply H; reflexivity).
      rewrite filter_nil.
      rewrite opening_onFinish_empty by reflexivity.
      split; simpl; [congruence | intros _].
      split; [exact Hphase | right; auto].
    + destruct Hst as [Hbefore _].
      destruct (Hbefore Hfinish) as (Hshown & Hphase & Htimers).
      destruct (Htimers t Hin) as [Hcb _].
      assert (forall ph, ph <> Opening.fadeOut ->
                Opening.steady
                  (Opening.setPhase ph (Opening.clearTimeout id st))) as Hset.
      { intros ph Hph. split; simpl; [intros _ | congruence].
        split_and!; auto.
        intros t' Ht'. apply list_elem_of_filter in Ht' as [_ Ht']. auto. }
      destruct (Opening.timerCallback t); simpl;
        [apply Hset; discriminate | apply Hset; discriminate | contradiction].
Qed.

Lemma opening_run_steady (es : list Opening.Event) (st : Opening.State) :
  Opening.steady st -> Opening.steady (Opening.run es st).
Proof.
  revert st. induction es as [| e es IH]; intros st Hst; simpl; [exact Hst |].
  apply IH, opening_handle_steady, Hst.
Qed.

Lemma opening_handle_hidden (e : Opening.Event) (st : Opening.State) :
  Opening.steady st ->
  Opening.showOpening st = false ->
  Opening.handle e st = st.
Proof.
  intros [Hbefore Hafter] Hshown.
  destruct (Opening.finishCalled st) eqn:Hfinish.
  - destruct (Hafter eq_refl) as (_ & [(Hs & _) | (_ & Hinter & Hnone)]); [congruence |].
    destruct e as [| | | id]; simpl; rewrite ?Hshown, ?Hnone;
      try reflexivity; apply opening_unlockAudio_recorded; exact Hinter.
  - destruct (Hbefore eq_refl) as (Hs & _). congruence.
Qed.

Lemma opening_finishCount_bound (es : list Opening.Event) (st : Opening.State) :
  Opening.steady st ->
  Opening.finishCount es st <= (if Opening.showOpening st then 1 else 0).
Proof.
  revert st. induction es as [| e es IH]; intros st Hst; simpl; [lia |].
  pose proof (opening_handle_steady e st Hst) as Hst'.
  specialize (IH _ Hst').
  destruct (Opening.showOpening st) eqn:Hshown.
  - destruct (Opening.runsOnFinish e st) eqn:Hruns; [| destruct (Opening.showOpening _); lia].
    assert (Opening.showOpening (Opening.handle e st) = false) as Hgone;
      [| rewrite Hgone in IH; lia].
    destruct e as [| | | id]; simpl in *; try discriminate.
    destruct (filter (fun t => Opening.timerId t = id) (Opening.timers st))
      as [| t rest]; [discriminate |].
    apply bool_decide_eq_true_1 in Hruns. rewrite Hruns. simpl.
    apply opening_onFinish_hidden.
  - rewrite (opening_handle_hidden e st Hst Hshown) in *. rewrite Hshown in IH.
    assert (Opening.runsOnFinish e st = false) as ->; [| lia].
    destruct Hst as [Hbefore Hafter].
    destruct (Opening.finishCalled st) eqn:Hfinish.
    + destruct (Hafter eq_refl) as (_ & [(Hs & _) | (_ & _ & Hnone)]); [congruence |].
      destruct e as [| | | id]; simpl; rewrite ?Hnone; reflexivity.
    + destruct (Hbefore eq_refl) as (Hs & _). congruence.
Qed.

(** X17.  [onFinish] runs at most once, whatever the clicks and the order
    in which timers expire; and once it has run the opening is gone for
    good: no timer is left and the interaction is recorded. *)
Theorem opening_finishes_once (firstId : positive) (es : list Opening.Event) :
  let st := Opening.run es (Opening.mount firstId) in
  Opening.finishCount es (Opening.mount firstId) <= 1
  /\ (Opening.showOpening st = false ->
      Opening.finishCalled st = true
      /\ Opening.hasInteracted st = true
      /\ Opening.timers st = []
      /\ forall e, Opening.handle e st = st).
Proof.
  intros st.
  pose proof (opening_mount_steady firstId) as Hmount.
  pose proof (opening_run_steady es _ Hmount) as Hst. fold st in Hst.
  split.
  - apply (opening_finishCount_bound es _ Hmount).
  - intros Hshown.
    assert (forall e, Opening.handle e st = st) as Hstuck
      by (intros e; apply opening_handle_hidden; assumption).
    destruct Hst as [Hbefore Hafter].
    destruct (Opening.finishCalled st) eqn:Hfinish.
    + destruct (Hafter eq_refl) as (_ & [(Hs & _) | (_ & Hinter & Hnone)]);
        [congruence | auto].
    + destruct (Hbefore eq_refl) as (Hs & _). congruence.
Qed.

Lemma opening_finishes_once_witness :
  Opening.finishCount
    [Opening.Click; Opening.Timeout 3; Opening.Click; Opening.Timeout 3]
    (Opening.mount 1) <= 1
  /\ Opening.timers
       (Opening.run [Opening.Click; Opening.Timeout 3; Opening.Click; Opening.Timeout 3]
                    (Opening.mount 1)) = [].
Proof.
  destruct (opening_finishes_once 1
              [Opening.Click; Opening.Timeout 3; Opening.Click; Opening.Timeout 3])
    as [Hcount Hgone].
  split; [exact Hcount | apply Hgone; reflexivity].
Defined.

(** A timer that expires before the click is one of the two phase timers. *)
Lemma opening_timeout_before_click (id : positive) (st : Opening.State) :
  Opening.steady st ->
  Opening.finishCalled st = false ->
  Opening.finishCalled (Opening.handle (Opening.Timeout id) st) = false
  /\ Opening.hasInteracted (Opening.handle (Opening.Timeout id) st)
     = Opening.hasInteracted st
  /\ Opening.runsOnFinish (Opening.Timeout id) st = false.
Proof.
  intros [Hbefore _] Hfinish. simpl.
  destruct (filter (fun t => Opening.timerId t = id) (Opening.timers st))
    as [| t rest] eqn:Hfound; [auto |].
  destruct (opening_timeout_found id st t rest Hfound) as [Hin _].
  destruct (Hbefore Hfinish) as (_ & _ & Htimers).
  destruct (Htimers t Hin) as [Hcb _].
  rewrite bool_decide_eq_false_2 by exact Hcb.
  destruct (Opening.timerCallback t); simpl; auto; contradiction.
Qed.

Lemma opening_no_click (es : list Opening.Event) (st : Opening.State) :
  Opening.Click ∉ es ->
  Opening.finishCalled st = false ->
  Opening.steady st ->
  Opening.finishCalled (Opening.run es st) = false.
Proof.
  revert st. induction es as [| e es IH]; intros st Hes Hfinish Hst; simpl;
    [exact Hfinish |].
  apply not_elem_of_cons in Hes as [He Hes].
  apply (IH _ Hes); [| apply opening_handle_steady; exact Hst].
  destruct e as [| | | id]; [contradiction | exact Hfinish | exact Hfinish |].
  apply opening_timeout_before_click; assumption.
Qed.

Lemma opening_no_input (es : list Opening.Event) (st : Opening.State) :
  Opening.Click ∉ es -> Opening.TouchStart ∉ es -> Opening.KeyDown ∉ es ->
  Opening.finishCalled st = false ->
  Opening.steady st ->
  Opening.hasInteracted (Opening.run es st) = Opening.hasInteracted st.
Proof.
  revert st. induction es as [| e es IH]; intros st Hc Ht Hk Hfinish Hst; simpl;
    [reflexivity |].
  apply not_elem_of_cons in Hc as [Hc Hcs].
  apply not_elem_of_cons in Ht as [Ht Hts].
  apply not_elem_of_cons in Hk as [Hk Hks].
  destruct e as [| | | id]; try contradiction.
  destruct (opening_timeout_before_click id st Hst Hfinish) as (Hfinish' & Hsame & _).
  rewrite (IH _ Hcs Hts Hks Hfinish' (opening_handle_steady _ _ Hst)).
  exact Hsame.
Qed.

Lemma opening_no_click_no_finish (es : list Opening.Event) (st : Opening.State) :
  Opening.Click ∉ es ->
  Opening.finishCalled st = false ->
  Opening.steady st ->
  Opening.finishCount es st = 0.
Proof.
  revert st. induction es as [| e es IH]; intros st Hes Hfinish Hst; simpl;
    [reflexivity |].
  apply not_elem_of_cons in Hes as [He Hes].
  rewrite (IH _ Hes);
    [| apply (opening_no_click [e] st); [| exact Hfinish | exact Hst];
       rewrite not_elem_of_cons; split; [exact He | apply not_elem_of_nil]
     | apply opening_handle_steady; exact Hst].
  destruct e as [| | | id]; [contradiction | reflexivity | reflexivity |].
  destruct (opening_timeout_before_click id st Hst Hfinish) as (_ & _ & Hruns).
  simpl in Hruns. simpl. rewrite Hruns. reflexivity.
Qed.

(** X18.  The opening waits for the user: as long as there is no click it
    stays on screen, whatever timers expire and whatever keys are pressed;
    it does not fade out and [onFinish] does not run.  An interaction is
    recorded meanwhile only by the window's listener, that is, not without
    a touch or a key press. *)
Theorem opening_waits_for_click (firstId : positive) (es : list Opening.Event) :
  Opening.Click ∉ es ->
  let st := Opening.run es (Opening.mount firstId) in
  Opening.showOpening st = true
  /\ Opening.phase st <> Opening.fadeOut
  /\ Opening.finishCount es (Opening.mount firstId) = 0
  /\ (Opening.TouchStart ∉ es -> Opening.KeyDown ∉ es ->
      Opening.hasInteracted st = false).
Proof.
  intros Hes st.
  pose proof (opening_mount_steady firstId) as Hmount.
  pose proof (opening_run_steady es _ Hmount) as [Hbefore _]. fold st in Hbefore.
  pose proof (opening_no_click es (Opening.mount firstId) Hes eq_refl Hmount) as Hfinish.
  fold st in Hfinish.
  destruct (Hbefore Hfinish) as (Hshown & Hphase & _).
  split_and!; try assumption.
  - apply opening_no_click_no_finish; [exact Hes | reflexivity | exact Hmount].
  - intros Ht Hk. subst st.
    rewrite (opening_no_input es (Opening.mount firstId) Hes Ht Hk eq_refl Hmount).
    reflexivity.
Qed.

Lemma opening_waits_for_click_witness :
  Opening.showOpening
    (Opening.run [Opening.Timeout 8; Opening.KeyDown; Opening.Timeout 7; Opening.Timeout 9]
                 (Opening.mount 7)) = true.
Proof.
  apply (opening_waits_for_click 7
           [Opening.Timeout 8; Opening.KeyDown; Opening.Timeout 7; Opening.Timeout 9]).
  rewrite !not_elem_of_cons. split_and!; try discriminate. apply not_elem_of_nil.
Defined.

(** X19.  The first click ends the opening, in whatever phase it comes:
    the two phase timers are cancelled, the phase is [fadeOut], and the only
    timer left is the one that, 1500 ms later, takes the opening down and
    records the interaction. *)
Theorem first_click_ends_opening (firstId : positive) (es : list Opening.Event) :
  Opening.Click ∉ es ->
  let st := Opening.run es (Opening.mount firstId) in
  let clicked := Opening.handle Opening.Click st in
  let finished := Opening.handle (Opening.Timeout (Opening.nextTimerId st)) clicked in
  Opening.phase clicked = Opening.fadeOut
  /\ Opening.timers clicked = [(Opening.nextTimerId st, Opening.OnFinish, 1500)]
  /\ Opening.showOpening clicked = true
  /\ Opening.showOpening finished = false
  /\ Opening.hasInteracted finished = true
  /\ Opening.timers finished = [].
Proof.
  intros Hes st clicked finished.
  pose proof (opening_mount_steady firstId) as Hmount.
  pose proof (opening_run_steady es _ Hmount) as Hst. fold st in Hst.
  pose proof (opening_no_click es (Opening.mount firstId) Hes eq_refl Hmount) as Hfinish. fold st in Hfinish.
  destruct (proj1 Hst Hfinish) as (Hshown & _).
  assert (clicked
          = Opening.mkState Opening.fadeOut true (Opening.glitchTimerId st)
              (Opening.idleTimerId st) [(Opening.nextTimerId st, Opening.OnFinish, 1500)]
              (Pos.succ (Opening.nextTimerId st)) true true)
    as Hclicked.
  { subst clicked. simpl. rewrite Hshown.
    rewrite (opening_handleStart_first st Hst Hfinish), Hshown. reflexivity. }
  subst finished. rewrite Hclicked. simpl.
  rewrite filter_cons_True by reflexivity. simpl.
  unfold Opening.clearTimeout. simpl.
  rewrite filter_cons_False by (simpl; intros H; apply H; reflexivity).
  destruct (Opening.glitchTimerId st), (Opening.idleTimerId st); simpl;
    split_and!; reflexivity.
Qed.

Lemma first_click_ends_opening_witness :
  Opening.showOpening
    (Opening.handle (Opening.Timeout 3)
       (Opening.handle Opening.Click
          (Opening.run [Opening.Timeout 1] (Opening.mount 1)))) = false.
Proof.
  apply (first_click_ends_opening 1 [Opening.Timeout 1]).
  rewrite !not_elem_of_cons. split_and!; try discriminate. apply not_elem_of_nil.
Defined.
